(** * MemoryManager: a word-granular allocator over a private arena

    Shallow embedding of [MemoryManager.h] / [MemoryManager.cpp].

    Modelling conventions.
    - [size_t] and [uintptr_t] are 64-bit, [unsigned] and [int] are 32-bit,
      [uint16_t] is 16-bit; every conversion and every arithmetic operation
      that can wrap is written with the matching [to_*] function.
    - Pointers are plain integers (a flat address space); [nullptr] is [0].
      The address that [new uint8_t[...]] hands out in [initialize] is an
      argument of the model.
    - The [std::deque<Region>] is a [list Region]. An iterator obtained
      from [std::find_if] is an index into the list. The iterator that
      [merge_adjacent_regions] keeps across [erase] is a slot of the
      storage of the deque, as in libstdc++.
    - The [std::unordered_map<uintptr_t, size_t>] is a [gmap Z Z].
    - Division by [unit_size] is only defined for a positive word size; the
      theorems that depend on it assume [0 < wordSize]. *)

From Stdlib Require Import ZArith List Lia Bool Sorted Permutation.
From stdpp Require Import base option list gmap.

Local Open Scope Z_scope.

(** ** Machine integers *)

Definition to_uint16 (z : Z) : Z := z mod 2 ^ 16.
Definition to_unsigned (z : Z) : Z := z mod 2 ^ 32.
Definition to_size_t (z : Z) : Z := z mod 2 ^ 64.
Definition to_int (z : Z) : Z := (z + 2 ^ 31) mod 2 ^ 32 - 2 ^ 31.

(** ** Data model (MemoryManager.h) *)

Record Region := mkRegion {
  position : Z;   (* Position in words *)
  extent : Z;     (* Size in words *)
  available : bool
}.

Definition set_extent (e : Z) (r : Region) : Region :=
  mkRegion (position r) e (available r).
Definition set_available (a : bool) (r : Region) : Region :=
  mkRegion (position r) (extent r) a.

(** [std::function<int(int, void* )>]: the second argument is the array
    produced by [getList], or a null pointer ([None]). *)
Definition Selector : Type := Z -> option (list Z) -> Z.

Record MemoryManager := mkManager {
  unit_size : Z;
  selector : Selector;
  storage_area : Z;
  total_capacity : Z;
  memory_regions : list Region;
  allocation_table : gmap Z Z
}.

(** ** Helpers of the standard library of the source *)

(** [std::find_if]: index and value of the first element satisfying [p];
    [None] is [end()]. *)
Fixpoint find_if (p : Region -> bool) (l : list Region) : option (nat * Region) :=
  match l with
  | [] => None
  | r :: l' =>
      if p r then Some (0%nat, r)
      else match find_if p l' with
           | Some (i, r') => Some (S i, r')
           | None => None
           end
  end.

(** [std::sort] on [std::pair<size_t, size_t>] (lexicographic [<]). Equal
    pairs are indistinguishable, so the sorted sequence is unique. *)
Definition pair_ltb (a b : Z * Z) : bool :=
  (fst a <? fst b) || ((fst a =? fst b) && (snd a <? snd b)).

Fixpoint insert_sorted (x : Z * Z) (l : list (Z * Z)) : list (Z * Z) :=
  match l with
  | [] => [x]
  | y :: l' => if pair_ltb y x then y :: insert_sorted x l' else x :: y :: l'
  end.

Definition sort_pairs (l : list (Z * Z)) : list (Z * Z) :=
  fold_right insert_sorted [] l.

(** ** Private members *)

(** *** The deque under [merge_adjacent_regions]

    The loop goes on using the iterator [current] after
    [memory_regions.erase(next)] and drops the iterator that [erase]
    returns. What [current] designates afterwards is decided by the deque
    of the standard library; the model follows [deque::_M_erase] of
    libstdc++ (bits/deque.tcc): an iterator is a slot of the storage,
    [erase] closes the gap from the shorter side, and a slot popped from
    either end keeps its bytes (a [Region] has no destructor). Such a slot
    is only read after the first two elements of a sequence of four or
    more have been merged; in every other run [current] designates a live
    element throughout (lemma [merge_adjacent_regions_valid]). Slots are
    numbered from the first element at the start of the call. *)
Record Sweep := mkSweep {
  deque_slots : list Region;  (* the storage, live or not *)
  deque_begin : nat;          (* slot of begin() *)
  deque_end : nat;            (* slot of end() *)
  current : nat               (* slot of the iterator of the loop *)
}.

(** The slots [i], ..., [j - 1]. *)
Definition slots_between (l : list Region) (i j : nat) : list Region :=
  firstn (j - i) (skipn i l).

(** [src] copied over the slots from [dest] on. *)
Definition copy_to (l : list Region) (dest : nat) (src : list Region) : list Region :=
  firstn dest l ++ src ++ skipn (dest + length src) l.

(** [_M_erase(position)]: with [index = position - begin()], if
    [size_type(index) < (size() >> 1)] the elements before [position] move
    up by one slot ([move_backward(begin(), position, next)], unless
    [position == begin()]) and [pop_front()] advances [begin()]; otherwise
    the elements after [position] move down by one slot
    ([move(next, end(), position)], unless [next == end()]) and
    [pop_back()] retreats [end()]. *)
Definition deque_erase (st : Sweep) (position : nat) : Sweep :=
  let next := S position in
  let index := Z.of_nat position - Z.of_nat (deque_begin st) in
  let size := to_size_t (Z.of_nat (deque_end st) - Z.of_nat (deque_begin st)) in
  if to_size_t index <? Z.shiftr size 1
  then mkSweep
         (if (position =? deque_begin st)%nat then deque_slots st
          else copy_to (deque_slots st) (S (deque_begin st))
                 (slots_between (deque_slots st) (deque_begin st) position))
         (S (deque_begin st)) (deque_end st) (current st)
  else mkSweep
         (if (next =? deque_end st)%nat then deque_slots st
          else copy_to (deque_slots st) position
                 (slots_between (deque_slots st) next (deque_end st)))
         (deque_begin st) (deque_end st - 1) (current st).

(** Addition of two [size_t]. *)
Definition add_size_t (a b : Z) : Z := to_size_t (a + b).

(** [current != memory_regions.end() - 1] fails. *)
Definition sweep_done (st : Sweep) : bool :=
  Z.of_nat (current st) =? Z.of_nat (deque_end st) - 1.

(** The body of the [while] loop. The slots of [current] and [next] are
    always slots of the storage (lemma [sweep_halts]), so the last case is
    never taken. *)
Definition sweep_body (st : Sweep) : Sweep :=
  let next := S (current st) in
  match deque_slots st !! current st, deque_slots st !! next with
  | Some c, Some n =>
      if available c && available n
      then deque_erase
             (mkSweep
                (<[current st := set_extent (add_size_t (extent c) (extent n)) c]>
                   (deque_slots st))
                (deque_begin st) (deque_end st) (current st))
             next
      else mkSweep (deque_slots st) (deque_begin st) (deque_end st) next
  | _, _ => st
  end.

(** The [while] loop; [2 * size()] iterations are enough for it to end
    (lemma [sweep_halts]). *)
Fixpoint sweep (fuel : nat) (st : Sweep) : Sweep :=
  match fuel with
  | O => st
  | S fuel' => if sweep_done st then st else sweep fuel' (sweep_body st)
  end.

(** The sequence after the loop: the slots from [begin()] to [end()].
    When the loop leaves [end()] before [begin()], the deque of the source
    has no meaningful size any more; the result is then empty. *)
Definition merge_adjacent_regions (regions : list Region) : list Region :=
  if (length regions <? 2)%nat then regions
  else
    let st := sweep (2 * length regions)
                    (mkSweep regions 0 (length regions) 0) in
    slots_between (deque_slots st) (deque_begin st) (deque_end st).

Definition validate_address (s : MemoryManager) (addr : Z) : bool :=
  (storage_area s <=? addr)
  && (addr <? storage_area s + to_size_t (total_capacity s * unit_size s)).

Definition convert_to_words (s : MemoryManager) (bytes : Z) : Z :=
  to_size_t (bytes + unit_size s - 1) / unit_size s.

(** ** Public members *)

Definition MemoryManager_new (wordSize : Z) (allocator : Selector) : MemoryManager :=
  mkManager (to_unsigned wordSize) allocator 0 0 [] ∅.

Definition shutdown (s : MemoryManager) : MemoryManager :=
  mkManager (unit_size s) (selector s) 0 0 [] ∅.

(** [fresh] is the address returned by [new uint8_t[sizeInWords * unit_size]]. *)
Definition initialize (s : MemoryManager) (fresh sizeInWords : Z) : MemoryManager :=
  let s := shutdown s in
  mkManager (unit_size s) (selector s) fresh sizeInWords
            [mkRegion 0 sizeInWords true] ∅.

Definition free_regions (s : MemoryManager) : list (Z * Z) :=
  sort_pairs (map (fun r => (position r, extent r))
                  (List.filter available (memory_regions s))).

(** [getList]: the array [count, pos1, size1, pos2, size2, ...] of
    [uint16_t]. *)
Definition getList (s : MemoryManager) : list Z :=
  let holes := free_regions s in
  to_uint16 (Z.of_nat (length holes))
  :: flat_map (fun h => [to_uint16 (fst h); to_uint16 (snd h)]) holes.

(** [allocate] returns the new state and the pointer ([0] for [nullptr]).
    [region_it] is the index found by [std::find_if]; it designates the same
    element before and after [emplace_back], whose arguments are read from
    the element before it is shrunk. *)
Definition allocate (s : MemoryManager) (sizeInBytes : Z) : MemoryManager * Z :=
  if storage_area s =? 0 then (s, 0) else
  let words_required := convert_to_words s sizeInBytes in
  let available_regions := getList s in
  let chosen_offset := selector s (to_int words_required) (Some available_regions) in
  if chosen_offset =? -1 then (s, 0) else
  match find_if (fun r => available r && (position r =? to_size_t chosen_offset))
                (memory_regions s) with
  | None => (s, 0)
  | Some (region_it, r) =>
      let regions :=
        if words_required <? extent r
        then alter (set_extent words_required) region_it
               (memory_regions s ++
                  [mkRegion (to_size_t (position r + words_required))
                            (to_size_t (extent r - words_required))
                            true])
        else memory_regions s in
      let regions := alter (set_available false) region_it regions in
      let allocated_memory :=
        storage_area s + to_unsigned (chosen_offset * unit_size s) in
      (mkManager (unit_size s) (selector s) (storage_area s) (total_capacity s)
                 regions
                 (<[allocated_memory := sizeInBytes]> (allocation_table s)),
       allocated_memory)
  end.

Definition free (s : MemoryManager) (address : Z) : MemoryManager :=
  if (address =? 0) || negb (validate_address s address) then s else
  match allocation_table s !! address with
  | None => s
  | Some _ =>
      let offset := to_size_t ((address - storage_area s) / unit_size s) in
      match find_if (fun r => (position r =? offset) && negb (available r))
                    (memory_regions s) with
      | Some (region_it, _) =>
          mkManager (unit_size s) (selector s) (storage_area s) (total_capacity s)
                    (merge_adjacent_regions
                       (alter (set_available true) region_it (memory_regions s)))
                    (delete address (allocation_table s))
      | None => s
      end
  end.

Definition setAllocator (s : MemoryManager) (allocator : Selector) : MemoryManager :=
  mkManager (unit_size s) allocator (storage_area s) (total_capacity s)
            (memory_regions s) (allocation_table s).

(** ** Placement strategies *)

Record HoleInfo := mkHole {
  start : Z;
  size : Z;
  waste : Z   (* Tracks unused space *)
}.

(** The [for] loop of [bestFit]: [i] is the loop variable, [n] the number of
    iterations left; the result is [qualified_holes] in [push_back] order. *)
Fixpoint qualified_scan (hole_data : list Z) (need : Z) (i n : nat) : list HoleInfo :=
  match n with
  | O => []
  | S n' =>
      let position := nth (2 * i + 1) hole_data 0 in
      let length := nth (2 * i + 2) hole_data 0 in
      if need <=? length
      then mkHole position length (to_size_t (length - need))
             :: qualified_scan hole_data need (S i) n'
      else qualified_scan hole_data need (S i) n'
  end.

(** [std::min_element] with the comparison [a.waste < b.waste]: the first
    smallest element. *)
Fixpoint min_element_from (smallest : HoleInfo) (l : list HoleInfo) : HoleInfo :=
  match l with
  | [] => smallest
  | h :: l' =>
      min_element_from (if waste h <? waste smallest then h else smallest) l'
  end.

Definition bestFit (sizeInWords : Z) (list : option (list Z)) : Z :=
  match list with
  | None => -1
  | Some hole_data =>
      let num_holes := nth 0 hole_data 0 in
      if num_holes =? 0 then -1 else
      match qualified_scan hole_data (to_size_t sizeInWords) 0 (Z.to_nat num_holes) with
      | [] => -1
      | h :: rest => to_int (start (min_element_from h rest))
      end
  end.

(** The [while (count-- > 0)] loop of [worstFit]. *)
Fixpoint worstFit_loop (holes : list Z) (word_requirement : Z)
    (count data_idx : nat) (max_pos biggest_gap : Z) : Z :=
  match count with
  | O => max_pos
  | S count' =>
      let current_pos := nth data_idx holes 0 in
      let current_len := nth (data_idx + 1) holes 0 in
      if (word_requirement <=? current_len) && (biggest_gap <? current_len)
      then worstFit_loop holes word_requirement count' (data_idx + 2)
             (to_int current_pos) current_len
      else worstFit_loop holes word_requirement count' (data_idx + 2)
             max_pos biggest_gap
  end.

Definition worstFit (sizeInWords : Z) (list : option (list Z)) : Z :=
  match list with
  | None => -1
  | Some holes =>
      if nth 0 holes 0 =? 0 then -1 else
      worstFit_loop holes (to_size_t sizeInWords)
        (Z.to_nat (nth 0 holes 0)) 1 (-1) 0
  end.

(** ** Call sequences *)

Inductive Call :=
  | Initialize (fresh sizeInWords : Z)
  | Allocate (sizeInBytes : Z)
  | Free (address : Z)
  | SetAllocator (allocator : Selector).

Definition step (s : MemoryManager) (c : Call) : MemoryManager :=
  match c with
  | Initialize fresh n => initialize s fresh n
  | Allocate b => fst (allocate s b)
  | Free a => free s a
  | SetAllocator f => setAllocator s f
  end.

Definition run (s : MemoryManager) (calls : list Call) : MemoryManager :=
  fold_left step calls s.

Definition triples (s : MemoryManager) : list (Z * Z * bool) :=
  map (fun r => (position r, extent r, available r)) (memory_regions s).

(** ** Observations used in the statements *)

Definition sum_extents (l : list Region) : Z :=
  fold_right (fun r acc => extent r + acc) 0 l.

(** Regions laid out back to back from word [p] on, in sequence order. *)
Fixpoint contiguous_from (p : Z) (l : list Region) : bool :=
  match l with
  | [] => true
  | r :: l' => (position r =? p) && contiguous_from (p + extent r) l'
  end.

(** No two consecutive elements of the sequence are both free. *)
Fixpoint no_adjacent_free (l : list Region) : bool :=
  match l with
  | r1 :: ((r2 :: _) as l') =>
      negb (available r1 && available r2) && no_adjacent_free l'
  | _ => true
  end.

Definition is_initialize (c : Call) : bool :=
  match c with Initialize _ _ => true | _ => false end.

(** The array [getList] builds for a list of holes whose fields fit. *)
Definition snapshot (holes : list (Z * Z)) : list Z :=
  Z.of_nat (length holes) :: flat_map (fun h => [fst h; snd h]) holes.

Definition fits_uint16 (h : Z * Z) : Prop :=
  (0 <= fst h < 2 ^ 16) /\ (0 <= snd h < 2 ^ 16).

(** The holes that can take the request, with their waste, as a function of
    the list of holes. *)
Fixpoint qualified_list (need : Z) (holes : list (Z * Z)) : list HoleInfo :=
  match holes with
  | [] => []
  | h :: holes' =>
      if need <=? snd h
      then mkHole (fst h) (snd h) (to_size_t (snd h - need))
             :: qualified_list need holes'
      else qualified_list need holes'
  end.

(** The loop of [worstFit] as a function of the list of holes. *)
Fixpoint worst_scan (need : Z) (holes : list (Z * Z)) (max_pos biggest_gap : Z) : Z :=
  match holes with
  | [] => max_pos
  | h :: holes' =>
      if (need <=? snd h) && (biggest_gap <? snd h)
      then worst_scan need holes' (to_int (fst h)) (snd h)
      else worst_scan need holes' max_pos biggest_gap
  end.

(** State of the loop of [worstFit] after the holes [seen]: either none of
    them can take the request, or [max_pos] and [gap] are those of the first
    largest one that can. *)
Definition first_largest (need : Z) (seen : list (Z * Z)) (max_pos gap : Z) : Prop :=
  (max_pos = -1 /\ gap = 0 /\ Forall (fun h => snd h < need) seen)
  \/ (exists l1 h l2,
        seen = l1 ++ h :: l2
        /\ max_pos = fst h /\ gap = snd h /\ need <= snd h
        /\ Forall (fun h' => need <= snd h' -> snd h' < snd h) l1
        /\ Forall (fun h' => need <= snd h' -> snd h' <= snd h) l2).

(** The invariant of the ledger: the extents are those of a partition of
    [total_capacity] words. *)
Definition ledger_ok (s : MemoryManager) : Prop :=
  0 < unit_size s
  /\ Forall (fun r => 0 <= extent r) (memory_regions s)
  /\ sum_extents (memory_regions s) = total_capacity s
  /\ total_capacity s < 2 ^ 64.

(** Two free regions of the sequence that touch in the address space: the
    second starts at the word where the first, which is not empty, ends. *)
Definition touching_free_pair (l : list Region) : bool :=
  existsb (fun r1 =>
    existsb (fun r2 =>
      available r1 && available r2 && (0 <? extent r1)
      && (position r1 + extent r1 =? position r2)) l) l.

(** ** Read-only members *)

Definition to_uint8 (z : Z) : Z := z mod 2 ^ 8.

Definition getWordSize (s : MemoryManager) : Z := unit_size s.

Definition getMemoryStart (s : MemoryManager) : Z := storage_area s.

(** The product is computed in [size_t] and returned as [unsigned]. *)
Definition getMemoryLimit (s : MemoryManager) : Z :=
  to_unsigned (to_size_t (total_capacity s * unit_size s)).

(** The inner loop of [getBitmap] for one region: the words of a free
    region are cleared in [word_status]. A write past the end of the vector
    is undefined in the source; here it changes nothing. *)
Definition mark_free_words (word_status : list bool) (region : Region) : list bool :=
  if available region
  then fold_left
         (fun ws i => <[Z.to_nat (to_size_t (position region + Z.of_nat i)) := false]> ws)
         (seq 0 (Z.to_nat (extent region))) word_status
  else word_status.

(** The last loop of [getBitmap]: [result[byte_pos] |= (1u << bit_pos)] for
    every word whose status is set. *)
Definition set_word_bit (word_status : list bool) (result : list Z) (word_idx : nat)
    : list Z :=
  match word_status !! word_idx with
  | Some true =>
      let byte_pos := (word_idx / 8 + 2)%nat in
      let bit_pos := Z.of_nat (word_idx mod 8) in
      alter (fun b => to_uint8 (Z.lor b (Z.shiftl 1 bit_pos))) byte_pos result
  | _ => result
  end.

Definition bitmap_bytes_needed (s : MemoryManager) : Z :=
  if total_capacity s mod 8 =? 0
  then total_capacity s / 8
  else to_size_t (total_capacity s / 8 + 1).

Definition word_status_of (s : MemoryManager) : list bool :=
  fold_left mark_free_words (memory_regions s)
            (repeat true (Z.to_nat (total_capacity s))).

(** [getBitmap]: two bytes of length, then one bit per word. *)
Definition getBitmap (s : MemoryManager) : list Z :=
  let bytes_needed := bitmap_bytes_needed s in
  let result :=
    [to_uint8 (Z.land bytes_needed 255);
     to_uint8 (Z.land (Z.shiftr bytes_needed 8) 255)]
    ++ repeat 0 (Z.to_nat bytes_needed) in
  fold_left (set_word_bit (word_status_of s))
            (seq 0 (Z.to_nat (total_capacity s))) result.

(** ** Further observations *)

(** Word [k] lies in a free region of the sequence. *)
Definition in_free_region (l : list Region) (k : Z) : bool :=
  existsb (fun r => available r && (position r <=? k) && (k <? position r + extent r)) l.

Definition pair_le (a b : Z * Z) : Prop :=
  fst a < fst b \/ (fst a = fst b /\ snd a <= snd b).

Definition holes_of (l : list Region) : list (Z * Z) :=
  map (fun r => (position r, extent r)) (List.filter available l).

Definition occupied_of (l : list Region) : list Region :=
  List.filter (fun r => negb (available r)) l.

(** The status [getBitmap] reads for word [k]: set unless cleared. *)
Definition status_at (word_status : list bool) (k : nat) : bool :=
  match word_status !! k with
  | Some true => true
  | _ => false
  end.

(** A free region lies inside the arena. *)
Definition free_within (capacity : Z) (r : Region) : Prop :=
  available r = true ->
  0 <= position r /\ 0 <= extent r /\ position r + extent r <= capacity.

(** ** The sweep with an iterator that stays on the merged region *)

(** The loop of [merge_adjacent_regions] as it runs when [current] still
    designates the merged region after [erase(next)]; [rest] are the
    elements after [current]. *)
Fixpoint merge_valid (c : Region) (rest : list Region) : list Region :=
  match rest with
  | [] => [c]
  | next :: rest' =>
      if available c && available next
      then merge_valid (set_extent (add_size_t (extent c) (extent next)) c) rest'
      else c :: merge_valid next rest'
  end.

(** The first two elements are not both free, or the sequence has at most
    three elements: no [erase] then pops the slot of [current]. *)
Definition front_pair_safe (regions : list Region) : bool :=
  match regions with
  | a :: b :: _ =>
      negb (available a && available b) || (length regions <=? 3)%nat
  | _ => true
  end.

(** What the loop keeps: the storage has [n] slots, [current] is before
    [end()], and [begin()] is at most two slots past [current]. *)
Definition sweep_inv (n : nat) (st : Sweep) : Prop :=
  length (deque_slots st) = n
  /\ (current st + 1 <= deque_end st <= n)%nat
  /\ (deque_begin st <= current st + 2)%nat.

Definition sweep_measure (st : Sweep) : nat :=
  (2 * (deque_end st - 1 - current st) + (current st + 2 - deque_begin st))%nat.

(** * Properties *)

(** ** Machine integers *)

Lemma to_size_t_small z : 0 <= z < 2 ^ 64 -> to_size_t z = z.
Proof. intros H. unfold to_size_t. now apply Z.mod_small. Qed.

Lemma to_int_small z : - 2 ^ 31 <= z < 2 ^ 31 -> to_int z = z.
Proof. intros H. unfold to_int. rewrite Z.mod_small; lia. Qed.

Lemma to_unsigned_small z : 0 <= z < 2 ^ 32 -> to_unsigned z = z.
Proof. intros H. unfold to_unsigned. now apply Z.mod_small. Qed.

(** ** Byte-to-word conversion *)

Section Conversion.
Variable s : MemoryManager.
Hypothesis unit_positive : 0 < unit_size s.

Lemma convert_to_words_nonneg bytes : 0 <= convert_to_words s bytes.
Proof.
  unfold convert_to_words, to_size_t.
  apply Z.div_pos; [apply Z.mod_pos_bound|]; lia.
Qed.

Lemma convert_to_words_bounds bytes :
  0 <= bytes -> bytes + unit_size s - 1 < 2 ^ 64 ->
  (convert_to_words s bytes - 1) * unit_size s < bytes
  <= convert_to_words s bytes * unit_size s.
Proof.
  intros Hb Hov. unfold convert_to_words.
  rewrite to_size_t_small by lia.
  pose proof (Z.div_mod (bytes + unit_size s - 1) (unit_size s)) as E.
  pose proof (Z.mod_pos_bound (bytes + unit_size s - 1) (unit_size s)) as B.
  nia.
Qed.
End Conversion.

(** C8 (as amended): the conversion is a ceiling division. A zero-byte
    request converts to zero words, no minimum of one word is imposed; a
    positive byte size converts to the least number of words that covers it,
    which is at least one. *)
Theorem convert_to_words_ceiling (s : MemoryManager) (bytes : Z) :
  0 < unit_size s -> 0 <= bytes -> bytes + unit_size s - 1 < 2 ^ 64 ->
  (convert_to_words s bytes - 1) * unit_size s < bytes
    <= convert_to_words s bytes * unit_size s
  /\ (bytes = 0 -> convert_to_words s bytes = 0)
  /\ (0 < bytes -> 1 <= convert_to_words s bytes).
Proof.
  intros Hu Hb Hov.
  pose proof (convert_to_words_bounds s Hu bytes Hb Hov) as B.
  pose proof (convert_to_words_nonneg s Hu bytes) as N.
  repeat split; try apply B; intros; nia.
Qed.

Lemma convert_to_words_ceiling_witness :
  let s := MemoryManager_new 4 bestFit in
  (convert_to_words s 9 - 1) * unit_size s < 9 <= convert_to_words s 9 * unit_size s
  /\ (9 = 0 -> convert_to_words s 9 = 0)
  /\ (0 < 9 -> 1 <= convert_to_words s 9).
Proof.
  apply (convert_to_words_ceiling (MemoryManager_new 4 bestFit) 9);
    vm_compute; try reflexivity; discriminate.
Defined.

(** C8 (as stated) fails: with a word size of 4, a request of 0 bytes is
    converted to 0 words, and [allocate] then carves an occupied region of
    extent 0 out of the arena. *)
Lemma zero_byte_request_counterexample :
  let s := initialize (MemoryManager_new 4 bestFit) 4096 100 in
  ~ (1 <= convert_to_words s 0)
  /\ triples (fst (allocate s 0)) = [(0, 0, false); (0, 100, true)].
Proof. split; [vm_compute; intros H; now apply H | vm_compute; reflexivity]. Qed.

(** ** Ignored calls of [free] *)

Lemma validate_address_false (s : MemoryManager) (address : Z) :
  address < storage_area s
  \/ storage_area s + to_size_t (total_capacity s * unit_size s) <= address ->
  validate_address s address = false.
Proof.
  intros H. unfold validate_address.
  destruct (Z.leb_spec (storage_area s) address);
    destruct (Z.ltb_spec address
                (storage_area s + to_size_t (total_capacity s * unit_size s)));
    simpl; try reflexivity; lia.
Qed.

Lemma free_untracked (s : MemoryManager) (address : Z) :
  allocation_table s !! address = None -> free s address = s.
Proof.
  intros H. unfold free. rewrite H.
  now destruct (_ || _).
Qed.

Lemma free_table_gone (s : MemoryManager) (address : Z) :
  free s address = s \/ allocation_table (free s address) !! address = None.
Proof.
  unfold free.
  destruct (_ || _); [now left|].
  destruct (allocation_table s !! address); [|now left].
  destruct (find_if _ _) as [[i r]|]; [|now left].
  right. simpl. apply lookup_delete_eq.
Qed.

(** C9: [free] of a null address, of an address outside the byte range of
    the arena, or of an address that is not a key of the allocation table
    returns the state it was given: region sequence and allocation table
    are unchanged. A second [free] of the same address is always such a
    call: it returns the state the first one produced. *)
Theorem free_invalid_is_noop (s : MemoryManager) (address : Z) :
  (address = 0
   \/ address < storage_area s
   \/ storage_area s + to_size_t (total_capacity s * unit_size s) <= address
   \/ allocation_table s !! address = None ->
   free s address = s)
  /\ free (free s address) address = free s address.
Proof.
  split.
  - intros [-> | [H | [H | H]]].
    + reflexivity.
    + unfold free. rewrite validate_address_false by auto.
      now rewrite orb_true_r.
    + unfold free. rewrite validate_address_false by auto.
      now rewrite orb_true_r.
    + now apply free_untracked.
  - destruct (free_table_gone s address) as [E | E].
    + now rewrite !E.
    + now apply free_untracked.
Qed.

Lemma free_invalid_is_noop_witness :
  let s := fst (allocate (initialize (MemoryManager_new 4 bestFit) 4096 100) 40) in
  free s 4100 = s.
Proof.
  intros s. apply (proj1 (free_invalid_is_noop s 4100)).
  right; right; right. vm_compute. reflexivity.
Defined.

(** C10: when the address is a key of the allocation table but no occupied
    region starts at its word offset, [free] returns the state it was given;
    the table still maps the address to its size. *)
Theorem free_inconsistent_is_noop (s : MemoryManager) (address size : Z) :
  address <> 0 ->
  validate_address s address = true ->
  allocation_table s !! address = Some size ->
  find_if (fun r => (position r =? to_size_t ((address - storage_area s) / unit_size s))
                    && negb (available r))
          (memory_regions s) = None ->
  free s address = s
  /\ allocation_table (free s address) !! address = Some size.
Proof.
  intros Hnull Hvalid Htab Hfind.
  assert (E : free s address = s).
  { unfold free. rewrite Hvalid, Htab, Hfind.
    destruct (Z.eqb_spec address 0); [contradiction | reflexivity]. }
  now rewrite E.
Qed.

Lemma free_inconsistent_is_noop_witness :
  let s := run (MemoryManager_new (2 ^ 31) bestFit)
               [Initialize 4096 4; Allocate (2 ^ 32); Allocate 1; Free 4096;
                Allocate 1] in
  let address := 4096 + 2 ^ 31 in
  free s address = s /\ allocation_table (free s address) !! address = Some 1.
Proof.
  intros s address.
  apply (free_inconsistent_is_noop s address 1); vm_compute;
    try reflexivity; discriminate.
Defined.

(** ** Placement strategies on a well-formed array *)

Lemma nth_flat_pairs (pre post : list (Z * Z)) (h : Z * Z) :
  nth (2 * length pre) (flat_map (fun h => [fst h; snd h]) (pre ++ h :: post)) 0
    = fst h
  /\ nth (2 * length pre + 1)
         (flat_map (fun h => [fst h; snd h]) (pre ++ h :: post)) 0
    = snd h.
Proof.
  induction pre as [|a pre IH].
  - now split.
  - replace (2 * length (a :: pre))%nat with (S (S (2 * length pre)))
      by (cbn [length]; lia).
    exact IH.
Qed.

Lemma nth_snapshot (pre post : list (Z * Z)) (h : Z * Z) :
  nth (2 * length pre + 1) (snapshot (pre ++ h :: post)) 0 = fst h
  /\ nth (2 * length pre + 2) (snapshot (pre ++ h :: post)) 0 = snd h.
Proof.
  destruct (nth_flat_pairs pre post h) as [E1 E2].
  unfold snapshot. split.
  - replace (2 * length pre + 1)%nat with (S (2 * length pre)) by lia.
    exact E1.
  - replace (2 * length pre + 2)%nat with (S (2 * length pre + 1)) by lia.
    exact E2.
Qed.

(** [getList] builds this array when the count and the fields of the holes
    fit in 16 bits. *)
Lemma getList_snapshot (s : MemoryManager) :
  Z.of_nat (length (free_regions s)) < 2 ^ 16 ->
  Forall fits_uint16 (free_regions s) ->
  getList s = snapshot (free_regions s).
Proof.
  intros Hlen Hfit. unfold getList, snapshot.
  cbv zeta. generalize dependent (free_regions s). intros holes Hlen Hfit.
  f_equal.
  - unfold to_uint16. apply Z.mod_small. lia.
  - clear Hlen. induction Hfit as [|h holes [Hp He] _ IH]; [reflexivity|].
    cbn [flat_map]. rewrite IH. unfold to_uint16.
    now rewrite !Z.mod_small by assumption.
Qed.

Lemma qualified_scan_snapshot (need : Z) (post pre : list (Z * Z)) :
  qualified_scan (snapshot (pre ++ post)) need (length pre) (length post)
  = qualified_list need post.
Proof.
  revert pre. induction post as [|h post IH]; intros pre; [reflexivity|].
  cbn [qualified_scan qualified_list length].
  destruct (nth_snapshot pre post h) as [-> ->].
  specialize (IH (pre ++ [h])).
  rewrite <- app_assoc, length_app in IH. cbn [app length] in IH.
  replace (length pre + 1)%nat with (S (length pre)) in IH by lia.
  now rewrite IH.
Qed.

Lemma min_element_from_first (l : list HoleInfo) (smallest : HoleInfo) :
  exists l1 l2,
    smallest :: l = l1 ++ min_element_from smallest l :: l2
    /\ Forall (fun x => waste (min_element_from smallest l) < waste x) l1
    /\ Forall (fun x => waste (min_element_from smallest l) <= waste x) l2.
Proof.
  revert smallest. induction l as [|h l IH]; intros smallest.
  - exists [], []. repeat split; constructor.
  - cbn [min_element_from].
    destruct (Z.ltb_spec (waste h) (waste smallest)) as [Hlt | Hge].
    + destruct (IH h) as (l1 & l2 & E & H1 & H2).
      exists (smallest :: l1), l2.
      split; [cbn [app]; now f_equal|]. split; [|exact H2].
      constructor; [|exact H1].
      destruct l1 as [|x l1]; cbn [app] in E; injection E as E1 E2.
      * rewrite <- E1. lia.
      * inversion H1; subst. lia.
    + destruct (IH smallest) as (l1 & l2 & E & H1 & H2).
      destruct l1 as [|x l1]; cbn [app] in E; injection E as E1 E2.
      * exists [], (h :: l2).
        split; [cbn [app]; congruence|]. split; [constructor|].
        constructor; [rewrite <- E1; lia | exact H2].
      * exists (smallest :: h :: l1), l2.
        split; [cbn [app]; congruence|]. split; [|exact H2].
        inversion H1; subst.
        constructor; [assumption|]. constructor; [lia | assumption].
Qed.

Lemma qualified_list_split (need : Z) (holes : list (Z * Z))
    (q1 q2 : list HoleInfo) (b : HoleInfo) :
  qualified_list need holes = q1 ++ b :: q2 ->
  exists l1 h l2,
    holes = l1 ++ h :: l2
    /\ need <= snd h
    /\ b = mkHole (fst h) (snd h) (to_size_t (snd h - need))
    /\ q1 = qualified_list need l1
    /\ q2 = qualified_list need l2.
Proof.
  revert q1. induction holes as [|a holes IH]; intros q1 E.
  - destruct q1; discriminate.
  - cbn [qualified_list] in E.
    destruct (Z.leb_spec need (snd a)) as [Hq | Hq].
    + destruct q1 as [|x q1]; simpl in E; inversion E; subst.
      * exists [], a, holes. repeat split; auto.
      * destruct (IH q1 H1) as (l1 & h & l2 & -> & Hh & Hb & -> & ->).
        exists (a :: l1), h, l2. repeat split; auto.
        cbn [qualified_list].
        destruct (Z.leb_spec need (snd a)); [reflexivity | lia].
    + destruct (IH q1 E) as (l1 & h & l2 & -> & Hh & Hb & -> & ->).
      exists (a :: l1), h, l2. repeat split; auto.
      cbn [qualified_list].
      destruct (Z.leb_spec need (snd a)); [lia | reflexivity].
Qed.

Lemma qualified_list_Forall (need : Z) (P : Z -> Prop) (holes : list (Z * Z)) :
  0 <= need ->
  Forall (fun h => 0 <= snd h < 2 ^ 16) holes ->
  Forall (fun x => P (waste x)) (qualified_list need holes) ->
  Forall (fun h => need <= snd h -> P (snd h - need)) holes.
Proof.
  intros Hneed.
  induction 1 as [|a holes Ha Hfit IH]; intros HQ; constructor.
  - intros Hq. cbn [qualified_list] in HQ.
    destruct (Z.leb_spec need (snd a)); [|lia].
    inversion HQ; subst. cbn [waste] in *.
    unfold to_size_t in H2. rewrite Z.mod_small in H2; [exact H2 | lia].
  - apply IH. cbn [qualified_list] in HQ.
    destruct (need <=? snd a); [now inversion HQ | exact HQ].
Qed.

Lemma qualified_list_nil (need : Z) (holes : list (Z * Z)) :
  qualified_list need holes = [] <-> Forall (fun h => snd h < need) holes.
Proof.
  induction holes as [|a holes IH]; cbn [qualified_list].
  - split; auto.
  - destruct (Z.leb_spec need (snd a)); split; intros H'.
    + discriminate.
    + inversion H'; subst. lia.
    + constructor; [lia | now apply IH].
    + inversion H'; subst. now apply IH.
Qed.

Lemma Forall_fits_snd (holes : list (Z * Z)) :
  Forall fits_uint16 holes -> Forall (fun h => 0 <= snd h < 2 ^ 16) holes.
Proof. induction 1 as [|h holes [_ H] _ IH]; constructor; assumption. Qed.

Lemma bestFit_snapshot (need : Z) (holes : list (Z * Z)) :
  0 <= need < 2 ^ 64 ->
  bestFit need (Some (snapshot holes))
  = match qualified_list need holes with
    | [] => -1
    | h :: rest => to_int (start (min_element_from h rest))
    end.
Proof.
  intros Hneed. unfold bestFit.
  change (nth 0 (snapshot holes) 0) with (Z.of_nat (length holes)).
  rewrite Nat2Z.id, to_size_t_small by exact Hneed.
  pose proof (qualified_scan_snapshot need holes []) as E.
  cbn [app length] in E. rewrite E. clear E.
  destruct holes as [|h holes]; [reflexivity|].
  destruct (Z.eqb_spec (Z.of_nat (length (h :: holes))) 0) as [E|_];
    [cbn [length] in E; lia | reflexivity].
Qed.

(** C6: on the array of a list of holes and a positive request, [bestFit]
    returns [-1] exactly when no hole has [extent >= wordsNeeded]; otherwise
    it returns the position of a hole that can take the request, whose
    leftover [extent - wordsNeeded] is strictly smaller than that of every
    earlier hole that can take it and at most that of every later one (the
    first hole of least leftover). For holes of sizes 10, 4 and 7 and a
    request of 5 words it returns the position of the hole of size 7. *)
Theorem bestFit_first_least_waste (need : Z) (holes : list (Z * Z)) :
  0 < need < 2 ^ 31 ->
  Forall fits_uint16 holes ->
  (bestFit need (Some (snapshot holes)) = -1
   <-> Forall (fun h => snd h < need) holes)
  /\ (bestFit need (Some (snapshot holes)) <> -1 ->
      exists l1 h l2,
        holes = l1 ++ h :: l2
        /\ need <= snd h
        /\ bestFit need (Some (snapshot holes)) = fst h
        /\ Forall (fun h' => need <= snd h' -> snd h - need < snd h' - need) l1
        /\ Forall (fun h' => need <= snd h' -> snd h - need <= snd h' - need) l2)
  /\ bestFit 5 (Some (snapshot [(0, 10); (20, 4); (30, 7)])) = 30.
Proof.
  intros Hneed Hfit.
  split; [|split; [|reflexivity]]; rewrite bestFit_snapshot by lia.
  - destruct (qualified_list need holes) as [|q qs] eqn:EQ.
    + split; [intros _; now apply qualified_list_nil | reflexivity].
    + destruct (min_element_from_first qs q) as (q1 & q2 & E & _ & _).
      rewrite E in EQ.
      destruct (qualified_list_split _ _ _ _ _ EQ)
        as (l1 & h & l2 & -> & Hh & -> & _ & _).
      cbn [start].
      apply Forall_app in Hfit as [_ Hfit].
      inversion Hfit as [|? ? [Hp He] _]; subst.
      rewrite to_int_small by lia.
      split; [lia|].
      intros HF. apply Forall_app in HF as [_ HF].
      inversion HF; subst. lia.
  - destruct (qualified_list need holes) as [|q qs] eqn:EQ; [congruence|].
    intros _.
    destruct (min_element_from_first qs q) as (q1 & q2 & E & H1 & H2).
    rewrite E in EQ.
    destruct (qualified_list_split _ _ _ _ _ EQ)
      as (l1 & h & l2 & -> & Hh & Hm & -> & ->).
    rewrite Hm in *. cbn [start waste] in *.
    apply Forall_app in Hfit as [Hfit1 Hfit].
    inversion Hfit as [|? ? [Hp He] Hfit2]; subst.
    rewrite to_size_t_small in H1, H2 by lia.
    exists l1, h, l2. rewrite to_int_small by lia.
    repeat split; auto.
    + apply (qualified_list_Forall need (fun w => snd h - need < w));
        [lia | now apply Forall_fits_snd | exact H1].
    + apply (qualified_list_Forall need (fun w => snd h - need <= w));
        [lia | now apply Forall_fits_snd | exact H2].
Qed.

Lemma bestFit_first_least_waste_witness :
  let holes := [(0, 10); (20, 4); (30, 7); (40, 7)] in
  (bestFit 5 (Some (snapshot holes)) = -1
   <-> Forall (fun h => snd h < 5) holes)
  /\ (bestFit 5 (Some (snapshot holes)) <> -1 ->
      exists l1 h l2,
        holes = l1 ++ h :: l2
        /\ 5 <= snd h
        /\ bestFit 5 (Some (snapshot holes)) = fst h
        /\ Forall (fun h' => 5 <= snd h' -> snd h - 5 < snd h' - 5) l1
        /\ Forall (fun h' => 5 <= snd h' -> snd h - 5 <= snd h' - 5) l2)
  /\ bestFit 5 (Some (snapshot [(0, 10); (20, 4); (30, 7)])) = 30.
Proof.
  apply (bestFit_first_least_waste 5 [(0, 10); (20, 4); (30, 7); (40, 7)]);
    [lia | repeat constructor; cbn; lia].
Defined.

Lemma worstFit_loop_snapshot (need : Z) (post pre : list (Z * Z)) (max_pos gap : Z) :
  worstFit_loop (snapshot (pre ++ post)) need (length post)
                (2 * length pre + 1) max_pos gap
  = worst_scan need post max_pos gap.
Proof.
  revert pre max_pos gap.
  induction post as [|h post IH]; intros pre max_pos gap; [reflexivity|].
  cbn [worstFit_loop worst_scan length].
  destruct (nth_snapshot pre post h) as [E1 E2].
  replace (2 * length pre + 1 + 1)%nat with (2 * length pre + 2)%nat by lia.
  rewrite E1, E2.
  assert (Enext : forall mp g,
    worstFit_loop (snapshot (pre ++ h :: post)) need (length post)
                  (2 * length pre + 1 + 2) mp g
    = worst_scan need post mp g).
  { intros mp g. specialize (IH (pre ++ [h]) mp g).
    rewrite <- app_assoc, length_app in IH. cbn [app length] in IH.
    replace (2 * (length pre + 1) + 1)%nat
      with (2 * length pre + 1 + 2)%nat in IH by lia.
    exact IH. }
  now rewrite !Enext.
Qed.

Lemma worstFit_snapshot (need : Z) (holes : list (Z * Z)) :
  0 <= need < 2 ^ 64 ->
  worstFit need (Some (snapshot holes)) = worst_scan need holes (-1) 0.
Proof.
  intros Hneed. unfold worstFit.
  change (nth 0 (snapshot holes) 0) with (Z.of_nat (length holes)).
  rewrite Nat2Z.id, to_size_t_small by exact Hneed.
  pose proof (worstFit_loop_snapshot need holes [] (-1) 0) as E.
  cbn [app length] in E. change (2 * 0 + 1)%nat with 1%nat in E.
  rewrite E. clear E.
  destruct holes as [|h holes]; [reflexivity|].
  destruct (Z.eqb_spec (Z.of_nat (length (h :: holes))) 0) as [E|_];
    [cbn [length] in E; lia | reflexivity].
Qed.

Lemma worst_scan_first_largest (need : Z) (post pre : list (Z * Z)) (max_pos gap : Z) :
  0 < need ->
  Forall fits_uint16 post ->
  first_largest need pre max_pos gap ->
  exists gap',
    first_largest need (pre ++ post) (worst_scan need post max_pos gap) gap'.
Proof.
  intros Hneed. revert pre max_pos gap.
  induction post as [|h post IH]; intros pre max_pos gap Hfit Hinv.
  - exists gap. now rewrite app_nil_r.
  - inversion Hfit as [|? ? [Hp He] Hfit']; subst.
    cbn [worst_scan].
    replace (pre ++ h :: post) with ((pre ++ [h]) ++ post)
      by now rewrite <- app_assoc.
    destruct (Z.leb_spec need (snd h)) as [Hq | Hq];
      destruct (Z.ltb_spec gap (snd h)) as [Hg | Hg]; cbn [andb];
      (apply IH; [exact Hfit'|]).
    + right. exists pre, h, []. rewrite to_int_small by lia.
      repeat split; auto.
      destruct Hinv as [(_ & _ & HF) | (l1 & h0 & l2 & -> & _ & -> & Hq0 & H1 & H2)].
      * eapply Forall_impl; [exact HF|]. cbn. intros; lia.
      * apply Forall_app. split; [|constructor].
        -- eapply Forall_impl; [exact H1|]. cbn. intros; lia.
        -- intros _. lia.
        -- eapply Forall_impl; [exact H2|]. cbn. intros; lia.
    + destruct Hinv as [(-> & -> & HF) | (l1 & h0 & l2 & -> & -> & -> & Hq0 & H1 & H2)];
        [lia|].
      right. exists l1, h0, (l2 ++ [h]). rewrite <- app_assoc.
      repeat split; auto.
      apply Forall_app. split; [exact H2|]. constructor; [|constructor].
      intros _. lia.
    + destruct Hinv as [(-> & -> & HF) | (l1 & h0 & l2 & -> & -> & -> & Hq0 & H1 & H2)].
      * left. repeat split; auto.
        apply Forall_app. split; [exact HF|]. now constructor.
      * right. exists l1, h0, (l2 ++ [h]). rewrite <- app_assoc.
        repeat split; auto.
        apply Forall_app. split; [exact H2|]. constructor; [|constructor].
        intros ?. lia.
    + destruct Hinv as [(-> & -> & HF) | (l1 & h0 & l2 & -> & -> & -> & Hq0 & H1 & H2)].
      * left. repeat split; auto.
        apply Forall_app. split; [exact HF|]. now constructor.
      * right. exists l1, h0, (l2 ++ [h]). rewrite <- app_assoc.
        repeat split; auto.
        apply Forall_app. split; [exact H2|]. constructor; [|constructor].
        intros ?. lia.
Qed.

(** C7: on the array of a list of holes and a positive request, [worstFit]
    returns [-1] exactly when no hole has [extent >= wordsNeeded]; otherwise
    it returns the position of a hole that can take the request, which is
    strictly larger than every earlier hole that can take it and at least as
    large as every later one (a later hole of equal size does not replace
    it). For holes of sizes 10, 4 and 7 and a request of 5 words it returns
    the position of the hole of size 10. *)
Theorem worstFit_first_largest (need : Z) (holes : list (Z * Z)) :
  0 < need < 2 ^ 31 ->
  Forall fits_uint16 holes ->
  (worstFit need (Some (snapshot holes)) = -1
   <-> Forall (fun h => snd h < need) holes)
  /\ (worstFit need (Some (snapshot holes)) <> -1 ->
      exists l1 h l2,
        holes = l1 ++ h :: l2
        /\ need <= snd h
        /\ worstFit need (Some (snapshot holes)) = fst h
        /\ Forall (fun h' => need <= snd h' -> snd h' < snd h) l1
        /\ Forall (fun h' => need <= snd h' -> snd h' <= snd h) l2)
  /\ worstFit 5 (Some (snapshot [(0, 10); (20, 4); (30, 7)])) = 0.
Proof.
  intros Hneed Hfit.
  assert (Hinv : exists gap,
            first_largest need holes (worstFit need (Some (snapshot holes))) gap).
  { rewrite worstFit_snapshot by lia.
    apply (worst_scan_first_largest need holes [] (-1) 0); [lia | exact Hfit |].
    left. repeat split. constructor. }
  destruct Hinv as [gap [(E & _ & HF) | (l1 & h & l2 & -> & E & _ & Hq & H1 & H2)]].
  - split; [|split; [|reflexivity]].
    + split; auto.
    + intros HE. contradiction.
  - apply Forall_app in Hfit as [_ Hfit].
    inversion Hfit as [|? ? [Hp He] _]; subst.
    split; [|split; [|reflexivity]].
    + split; [lia|]. intros HF. apply Forall_app in HF as [_ HF].
      inversion HF; subst. lia.
    + intros _. exists l1, h, l2. repeat split; auto.
Qed.

Lemma worstFit_first_largest_witness :
  let holes := [(0, 10); (20, 4); (30, 12); (40, 12)] in
  (worstFit 5 (Some (snapshot holes)) = -1
   <-> Forall (fun h => snd h < 5) holes)
  /\ (worstFit 5 (Some (snapshot holes)) <> -1 ->
      exists l1 h l2,
        holes = l1 ++ h :: l2
        /\ 5 <= snd h
        /\ worstFit 5 (Some (snapshot holes)) = fst h
        /\ Forall (fun h' => 5 <= snd h' -> snd h' < snd h) l1
        /\ Forall (fun h' => 5 <= snd h' -> snd h' <= snd h) l2)
  /\ worstFit 5 (Some (snapshot [(0, 10); (20, 4); (30, 7)])) = 0.
Proof.
  apply (worstFit_first_largest 5 [(0, 10); (20, 4); (30, 12); (40, 12)]);
    [lia | repeat constructor; cbn; lia].
Defined.

(** ** The region ledger *)

Lemma find_if_Some (p : Region -> bool) (l : list Region) (i : nat) (r : Region) :
  find_if p l = Some (i, r) -> l !! i = Some r /\ p r = true.
Proof.
  revert i. induction l as [|a l IH]; intros i H; [discriminate|].
  cbn [find_if] in H. destruct (p a) eqn:Hp.
  - injection H as <- <-. now split.
  - destruct (find_if p l) as [[j r']|]; [|discriminate].
    injection H as <- <-. now apply IH.
Qed.

Lemma sum_extents_app (l1 l2 : list Region) :
  sum_extents (l1 ++ l2) = sum_extents l1 + sum_extents l2.
Proof.
  induction l1 as [|a l1 IH]; cbn [app sum_extents fold_right]; [reflexivity|].
  fold (sum_extents (l1 ++ l2)). fold (sum_extents l1). lia.
Qed.

Lemma sum_extents_cons (r : Region) (l : list Region) :
  sum_extents (r :: l) = extent r + sum_extents l.
Proof. reflexivity. Qed.

Lemma sum_extents_alter (f : Region -> Region) (l : list Region) (i : nat) (r : Region) :
  l !! i = Some r ->
  sum_extents (alter f i l) = sum_extents l - extent r + extent (f r).
Proof.
  revert i. induction l as [|a l IH]; intros [|i] H; try discriminate.
  - injection H as ->. cbn [alter list_alter]. rewrite !sum_extents_cons. lia.
  - cbn [alter list_alter]. rewrite !sum_extents_cons.
    rewrite (IH i) by exact H. lia.
Qed.

Lemma extent_le_sum (l : list Region) (i : nat) (r : Region) :
  Forall (fun r => 0 <= extent r) l -> l !! i = Some r ->
  0 <= extent r <= sum_extents l.
Proof.
  intros HF. revert i. induction HF as [|a l Ha HF IH]; intros [|i] H;
    try discriminate; rewrite sum_extents_cons.
  - injection H as ->.
    assert (0 <= sum_extents l); [|lia].
    clear -HF. induction HF; [reflexivity|]. rewrite sum_extents_cons. lia.
  - specialize (IH i H). lia.
Qed.

Lemma initialize_ledger_ok (s : MemoryManager) (fresh sizeInWords : Z) :
  0 < unit_size s -> 0 <= sizeInWords < 2 ^ 64 ->
  ledger_ok (initialize s fresh sizeInWords).
Proof.
  intros Hu Hn. unfold ledger_ok, initialize. cbn.
  repeat split; try lia. repeat constructor. cbn. lia.
Qed.

Lemma allocate_ledger_ok (s : MemoryManager) (sizeInBytes : Z) :
  ledger_ok s ->
  ledger_ok (fst (allocate s sizeInBytes))
  /\ total_capacity (fst (allocate s sizeInBytes)) = total_capacity s.
Proof.
  intros (Hu & HF & Hsum & Hcap). unfold allocate.
  destruct (storage_area s =? 0); [now repeat split|].
  destruct (_ =? -1); [now repeat split|].
  destruct (find_if _ _) as [[i r]|] eqn:Hfind; [|now repeat split].
  apply find_if_Some in Hfind as [Hi _].
  pose proof (convert_to_words_nonneg s Hu sizeInBytes) as Hw.
  pose proof (extent_le_sum _ _ _ HF Hi) as Hr.
  set (w := convert_to_words s sizeInBytes) in *.
  cbn [fst]. unfold ledger_ok. cbn [unit_size memory_regions total_capacity].
  split; [|reflexivity]. split; [exact Hu|].
  destruct (Z.ltb_spec w (extent r)) as [Hsplit | Hfit].
  - set (rem := mkRegion _ _ true).
    assert (Hrem : extent rem = extent r - w).
    { subst rem. cbn [extent]. apply to_size_t_small. lia. }
    assert (Hi' : (memory_regions s ++ [rem]) !! i = Some r)
      by now apply lookup_app_l_Some.
    assert (Hi'' : alter (set_extent w) i (memory_regions s ++ [rem]) !! i
                   = Some (set_extent w r))
      by now rewrite list_lookup_alter_eq, Hi'.
    split; [|split; [|exact Hcap]].
    + apply Forall_alter; [|intros x _ Hx; exact Hx].
      apply Forall_alter; [|intros x _ _; cbn; lia].
      apply Forall_app. split; [exact HF|].
      constructor; [lia | constructor].
    + rewrite (sum_extents_alter _ _ _ _ Hi'').
      rewrite (sum_extents_alter _ _ _ _ Hi').
      rewrite sum_extents_app, sum_extents_cons. cbn [set_available set_extent extent sum_extents fold_right].
      lia.
  - split; [|split; [|exact Hcap]].
    + apply Forall_alter; [exact HF | intros x _ Hx; exact Hx].
    + rewrite (sum_extents_alter _ _ _ _ Hi). cbn [set_available extent]. lia.
Qed.

Lemma run_unit_size (calls : list Call) (s : MemoryManager) :
  unit_size (run s calls) = unit_size s.
Proof.
  revert s. induction calls as [|c calls IH]; intros s; [reflexivity|].
  cbn [run fold_left]. fold (run (step s c) calls). rewrite IH.
  destruct c as [fresh n | b | a | f]; cbn [step]; try reflexivity.
  - unfold allocate.
    destruct (storage_area s =? 0); [reflexivity|].
    destruct (_ =? -1); [reflexivity|].
    now destruct (find_if _ _) as [[i r]|].
  - unfold free.
    destruct (_ || _); [reflexivity|].
    destruct (allocation_table s !! a); [|reflexivity].
    now destruct (find_if _ _) as [[i r]|].
Qed.

(** ** The sweep of [merge_adjacent_regions] *)

(** On two elements the only [erase] removes the last element, and
    [current] stays on the merged region. *)
Lemma merge_adjacent_regions_pair (a b : Region) :
  merge_adjacent_regions [a; b]
  = if available a && available b
    then [set_extent (add_size_t (extent a) (extent b)) a]
    else [a; b].
Proof.
  destruct a as [p1 e1 [|]], b as [p2 e2 [|]]; cbv -[add_size_t]; reflexivity.
Qed.

Lemma front_branch_index (index size : Z) :
  -1 <= index -> 0 <= size < 2 ^ 64 ->
  (to_size_t index <? Z.shiftr size 1) = true -> 0 <= index.
Proof.
  intros Hi Hs H. apply Z.ltb_lt in H.
  rewrite Z.shiftr_div_pow2 in H by lia. change (2 ^ 1) with 2 in H.
  destruct (Z.eq_dec index (-1)) as [->|]; [|lia].
  change (to_size_t (-1)) with (2 ^ 64 - 1) in H.
  assert (size / 2 <= size) by (apply Z.div_le_upper_bound; lia). lia.
Qed.

Lemma copy_to_length (l src : list Region) (dest : nat) :
  (dest + length src <= length l)%nat ->
  length (copy_to l dest src) = length l.
Proof.
  intros H. unfold copy_to.
  rewrite !length_app, length_take, length_drop. lia.
Qed.

Lemma slots_between_length (l : list Region) (i j : nat) :
  (j <= length l)%nat -> length (slots_between l i j) = (j - i)%nat.
Proof.
  intros H. unfold slots_between. rewrite length_take, length_drop. lia.
Qed.

Lemma deque_erase_next (n : nat) (st : Sweep) :
  sweep_inv n st ->
  (current st + 2 <= deque_end st)%nat ->
  sweep_inv n (deque_erase st (S (current st)))
  /\ (sweep_measure (deque_erase st (S (current st))) < sweep_measure st)%nat.
Proof.
  intros (Hlen & He & Hb) Hnot. unfold deque_erase.
  destruct (to_size_t (Z.of_nat (S (current st)) - Z.of_nat (deque_begin st))
            <? Z.shiftr (to_size_t (Z.of_nat (deque_end st)
                                    - Z.of_nat (deque_begin st))) 1) eqn:Hfront.
  - apply front_branch_index in Hfront;
      [|lia | apply Z.mod_pos_bound; lia].
    unfold sweep_inv, sweep_measure.
    cbn [deque_slots deque_begin deque_end current].
    split; [|lia]. split; [|lia].
    destruct (Nat.eqb_spec (S (current st)) (deque_begin st)); [exact Hlen|].
    rewrite copy_to_length; [exact Hlen|].
    rewrite slots_between_length by lia. lia.
  - unfold sweep_inv, sweep_measure.
    cbn [deque_slots deque_begin deque_end current].
    split; [|lia]. split; [|lia].
    destruct (Nat.eqb_spec (S (S (current st))) (deque_end st)); [exact Hlen|].
    rewrite copy_to_length; [exact Hlen|].
    rewrite slots_between_length by lia. lia.
Qed.

Lemma sweep_body_progress (n : nat) (st : Sweep) :
  sweep_inv n st ->
  sweep_done st = false ->
  sweep_inv n (sweep_body st)
  /\ (sweep_measure (sweep_body st) < sweep_measure st)%nat.
Proof.
  intros Hinv Hdone.
  pose proof Hinv as (Hlen & He & Hb).
  unfold sweep_done in Hdone. apply Z.eqb_neq in Hdone.
  assert (Hnot : (current st + 2 <= deque_end st)%nat) by lia.
  unfold sweep_body.
  destruct (lookup_lt_is_Some_2 (deque_slots st) (current st)) as [c Hc]; [lia|].
  destruct (lookup_lt_is_Some_2 (deque_slots st) (S (current st))) as [nx Hn]; [lia|].
  rewrite Hc, Hn.
  destruct (available c && available nx).
  - apply (deque_erase_next n
             (mkSweep (<[current st := set_extent (add_size_t (extent c) (extent nx)) c]>
                         (deque_slots st))
                      (deque_begin st) (deque_end st) (current st))).
    + unfold sweep_inv. cbn [deque_slots deque_begin deque_end current].
      rewrite length_insert. auto.
    + exact Hnot.
  - unfold sweep_inv, sweep_measure.
    cbn [deque_slots deque_begin deque_end current]. lia.
Qed.

Lemma sweep_enough_fuel (n fuel : nat) (st : Sweep) :
  sweep_inv n st ->
  (sweep_measure st <= fuel)%nat ->
  sweep_done (sweep fuel st) = true.
Proof.
  revert st. induction fuel as [|fuel IH]; intros st Hinv Hfuel.
  - cbn [sweep]. destruct Hinv as (_ & He & Hb).
    unfold sweep_measure in Hfuel. unfold sweep_done. apply Z.eqb_eq. lia.
  - cbn [sweep]. destruct (sweep_done st) eqn:Hdone; [exact Hdone|].
    destruct (sweep_body_progress n st Hinv Hdone) as [Hinv' Hless].
    apply IH; [exact Hinv' | lia].
Qed.

(** The loop of [merge_adjacent_regions] ends: within [2 * size()]
    iterations [current] reaches [end() - 1]. *)
Lemma sweep_halts (regions : list Region) :
  (2 <= length regions)%nat ->
  sweep_done (sweep (2 * length regions)
                    (mkSweep regions 0 (length regions) 0)) = true.
Proof.
  intros Hlen. apply (sweep_enough_fuel (length regions)).
  - unfold sweep_inv. cbn [deque_slots deque_begin deque_end current]. lia.
  - unfold sweep_measure. cbn [deque_begin deque_end current]. lia.
Qed.

(** ** When the sweep keeps [current] on the merged region *)

Lemma slots_between_middle (pre mid post : list Region) (i j : nat) :
  i = length pre -> j = (length pre + length mid)%nat ->
  slots_between (pre ++ mid ++ post) i j = mid.
Proof.
  intros -> ->. unfold slots_between. rewrite drop_app_length.
  replace (length pre + length mid - length pre)%nat with (length mid) by lia.
  apply take_app_length.
Qed.

Lemma copy_to_middle (pre old src post : list Region) (dest : nat) :
  dest = length pre -> length old = length src ->
  copy_to (pre ++ old ++ post) dest src = pre ++ src ++ post.
Proof.
  intros -> Hlen. unfold copy_to. rewrite take_app_length.
  do 2 f_equal. rewrite app_assoc.
  apply drop_app_length'. rewrite length_app. lia.
Qed.

Lemma at_slot_lookup (pre done : list Region) (c : Region) (tail : list Region) :
  (pre ++ done ++ c :: tail) !! (length pre + length done)%nat = Some c.
Proof.
  rewrite app_assoc. apply list_lookup_middle. now rewrite length_app.
Qed.

Lemma at_slot_lookup_next (pre done : list Region) (c nx : Region)
    (tail : list Region) :
  (pre ++ done ++ c :: nx :: tail) !! S (length pre + length done) = Some nx.
Proof.
  replace (pre ++ done ++ c :: nx :: tail)
    with ((pre ++ done ++ [c]) ++ nx :: tail)
    by (rewrite <- !app_assoc; reflexivity).
  apply list_lookup_middle. rewrite !length_app. cbn [length]. lia.
Qed.

Lemma at_slot_insert (pre done : list Region) (c m : Region) (tail : list Region) :
  <[(length pre + length done)%nat := m]> (pre ++ done ++ c :: tail)
  = pre ++ done ++ m :: tail.
Proof.
  rewrite !app_assoc. rewrite <- length_app.
  replace (length (pre ++ done)) with (length (pre ++ done) + 0)%nat by lia.
  now rewrite insert_app_r.
Qed.

(** The state of the loop with [current] on the region [c]: [done] are the
    live elements before it, [rest] those after it; [pre] and [post] are
    slots outside the deque. *)
Lemma sweep_at_slot (rest : list Region) :
  forall (fuel : nat) (pre done : list Region) (c : Region) (post : list Region),
    (2 * length rest <= fuel)%nat ->
    (done = [] ->
     forall nx rest', rest = nx :: rest' ->
       available c && available nx = true -> (length rest <= 2)%nat) ->
    (forall d, last done = Some d -> available d && available c = false) ->
    let st := sweep fuel
                (mkSweep (pre ++ done ++ c :: rest ++ post)
                   (length pre)
                   (length pre + length done + 1 + length rest)
                   (length pre + length done)) in
    slots_between (deque_slots st) (deque_begin st) (deque_end st)
    = done ++ merge_valid c rest.
Proof.
  induction rest as [|nx rest IH]; intros fuel pre done c post Hfuel Hsmall Hlast st;
    subst st.
  - assert (Hdone : sweep_done
              (mkSweep (pre ++ done ++ c :: [] ++ post) (length pre)
                 (length pre + length done + 1 + length (@nil Region))
                 (length pre + length done)) = true).
    { unfold sweep_done. cbn [current deque_end length]. apply Z.eqb_eq. lia. }
    assert (E : sweep fuel
              (mkSweep (pre ++ done ++ c :: [] ++ post) (length pre)
                 (length pre + length done + 1 + length (@nil Region))
                 (length pre + length done))
              = mkSweep (pre ++ done ++ c :: [] ++ post) (length pre)
                 (length pre + length done + 1 + length (@nil Region))
                 (length pre + length done)).
    { destruct fuel; [reflexivity|]. cbn [sweep]. now rewrite Hdone. }
    rewrite E. cbn [deque_slots deque_begin deque_end merge_valid app].
    replace (pre ++ done ++ c :: post) with (pre ++ (done ++ [c]) ++ post)
      by (rewrite <- !app_assoc; reflexivity).
    apply slots_between_middle; [reflexivity|].
    rewrite length_app. cbn [length]. lia.
  - cbn [length] in Hfuel.
    destruct fuel as [|fuel]; [lia|].
    cbn [sweep].
    assert (Hdone : sweep_done
              (mkSweep (pre ++ done ++ c :: (nx :: rest) ++ post) (length pre)
                 (length pre + length done + 1 + length (nx :: rest))
                 (length pre + length done)) = false).
    { unfold sweep_done. cbn [current deque_end length]. apply Z.eqb_neq. lia. }
    rewrite Hdone. unfold sweep_body.
    cbn [deque_slots deque_begin deque_end current app].
    rewrite at_slot_lookup, at_slot_lookup_next.
    destruct (available c && available nx) eqn:Hboth.
    + (* merge *)
      rewrite at_slot_insert.
      set (m := set_extent (add_size_t (extent c) (extent nx)) c).
      cbn [merge_valid]. rewrite Hboth. fold m.
      unfold deque_erase.
      cbn [deque_slots deque_begin deque_end current].
      destruct (to_size_t
                  (Z.of_nat (S (length pre + length done)) - Z.of_nat (length pre))
                <? Z.shiftr
                     (to_size_t
                        (Z.of_nat (length pre + length done + 1 + length (nx :: rest))
                         - Z.of_nat (length pre))) 1) eqn:Hfront.
      * (* the elements before [next] move up, [begin()] advances *)
        destruct done as [|d0 done'].
        { exfalso.
          specialize (Hsmall eq_refl nx rest eq_refl Hboth).
          cbn [length] in Hsmall, Hfront.
          apply Z.ltb_lt in Hfront.
          rewrite Z.shiftr_div_pow2 in Hfront by lia.
          change (2 ^ 1) with 2 in Hfront.
          rewrite !to_size_t_small in Hfront by lia.
          assert ((Z.of_nat (length pre + 0 + 1 + S (length rest))
                   - Z.of_nat (length pre)) / 2 < 2)
            by (apply Z.div_lt_upper_bound; lia).
          lia. }
        set (done := d0 :: done') in *.
        destruct (Nat.eqb_spec (S (length pre + length done)) (length pre)) as [E|_];
          [lia|].
        assert (Hsrc : slots_between (pre ++ done ++ m :: nx :: rest ++ post)
                         (length pre) (S (length pre + length done))
                       = done ++ [m]).
        { replace (pre ++ done ++ m :: nx :: rest ++ post)
            with (pre ++ (done ++ [m]) ++ nx :: rest ++ post)
            by (rewrite <- !app_assoc; reflexivity).
          apply slots_between_middle; [reflexivity|].
          rewrite length_app. cbn [length]. lia. }
        rewrite Hsrc.
        assert (Hcopy : copy_to (pre ++ done ++ m :: nx :: rest ++ post)
                          (S (length pre)) (done ++ [m])
                        = (pre ++ [d0]) ++ done ++ m :: rest ++ post).
        { replace (pre ++ done ++ m :: nx :: rest ++ post)
            with ((pre ++ [d0]) ++ (done' ++ [m; nx]) ++ rest ++ post)
            by (subst done; rewrite <- !app_assoc; reflexivity).
          rewrite (copy_to_middle (pre ++ [d0]) (done' ++ [m; nx]) (done ++ [m])).
          - rewrite <- !app_assoc. reflexivity.
          - rewrite length_app. cbn [length]. lia.
          - subst done. rewrite !length_app. cbn [length]. lia. }
        rewrite Hcopy.
        (* one more iteration brings [current] back on the merged region *)
        destruct fuel as [|fuel]; [lia|].
        cbn [sweep].
        assert (Hdone' : sweep_done
                  (mkSweep ((pre ++ [d0]) ++ done ++ m :: rest ++ post)
                     (S (length pre))
                     (length pre + length done + 1 + length (nx :: rest))
                     (length pre + length done)) = false).
        { unfold sweep_done. cbn [current deque_end length]. apply Z.eqb_neq. lia. }
        rewrite Hdone'. unfold sweep_body.
        cbn [deque_slots deque_begin deque_end current].
        destruct (last done) as [dl|] eqn:Hl;
          [|apply last_None in Hl; subst done; discriminate].
        pose proof Hl as Hl'. apply last_Some in Hl' as [done0 Hdone0].
        assert (Hdl : available dl && available c = false).
        { now apply Hlast. }
        assert (Hlook1 : ((pre ++ [d0]) ++ done ++ m :: rest ++ post)
                           !! (length pre + length done)%nat = Some dl).
        { rewrite Hdone0.
          replace ((pre ++ [d0]) ++ (done0 ++ [dl]) ++ m :: rest ++ post)
            with (((pre ++ [d0]) ++ done0) ++ dl :: m :: rest ++ post)
            by (rewrite <- !app_assoc; reflexivity).
          apply list_lookup_middle.
          rewrite !length_app. cbn [length]. lia. }
        assert (Hlook2 : ((pre ++ [d0]) ++ done ++ m :: rest ++ post)
                           !! S (length pre + length done) = Some m).
        { replace ((pre ++ [d0]) ++ done ++ m :: rest ++ post)
            with (((pre ++ [d0]) ++ done) ++ m :: rest ++ post)
            by (rewrite <- !app_assoc; reflexivity).
          apply list_lookup_middle. rewrite !length_app. cbn [length]. lia. }
        rewrite Hlook1, Hlook2.
        assert (Hm : available m = available c) by reflexivity.
        rewrite Hm, Hdl.
        specialize (IH fuel (pre ++ [d0]) done m post ltac:(lia)).
        cbv zeta in IH.
        replace (length (pre ++ [d0])) with (S (length pre)) in IH
          by (rewrite length_app; cbn [length]; lia).
        replace (S (length pre) + length done + 1 + length rest)%nat
          with (length pre + length done + 1 + length (nx :: rest))%nat in IH
          by (cbn [length]; lia).
        replace (S (length pre) + length done)%nat
          with (S (length pre + length done)) in IH by lia.
        apply IH.
        -- subst done. discriminate.
        -- intros d Hd. rewrite Hdone0, last_snoc in Hd. injection Hd as <-.
           now rewrite Hm.
      * (* the elements after [next] move down, [end()] retreats *)
        assert (Hstate :
          (if (S (S (length pre + length done))
               =? length pre + length done + 1 + length (nx :: rest))%nat
           then pre ++ done ++ m :: nx :: rest ++ post
           else copy_to (pre ++ done ++ m :: nx :: rest ++ post)
                  (S (length pre + length done))
                  (slots_between (pre ++ done ++ m :: nx :: rest ++ post)
                     (S (S (length pre + length done)))
                     (length pre + length done + 1 + length (nx :: rest))))
          = pre ++ done ++ m :: rest ++ (drop (length rest) (nx :: rest) ++ post)).
        { destruct (Nat.eqb_spec (S (S (length pre + length done)))
                      (length pre + length done + 1 + length (nx :: rest))) as [E|E].
          - cbn [length] in E. assert (rest = []) as -> by (destruct rest; [reflexivity | cbn [length] in E; lia]).
            reflexivity.
          - assert (Hsrc : slots_between (pre ++ done ++ m :: nx :: rest ++ post)
                             (S (S (length pre + length done)))
                             (length pre + length done + 1 + length (nx :: rest))
                           = rest).
            { replace (pre ++ done ++ m :: nx :: rest ++ post)
                with ((pre ++ done ++ [m; nx]) ++ rest ++ post)
                by (rewrite <- !app_assoc; reflexivity).
              apply slots_between_middle.
              - rewrite !length_app. cbn [length]. lia.
              - rewrite !length_app. cbn [length]. lia. }
            rewrite Hsrc.
            replace (pre ++ done ++ m :: nx :: rest ++ post)
              with ((pre ++ done ++ [m]) ++ take (length rest) (nx :: rest)
                    ++ (drop (length rest) (nx :: rest) ++ post)).
            + rewrite (copy_to_middle (pre ++ done ++ [m])
                         (take (length rest) (nx :: rest)) rest).
              * rewrite <- !app_assoc. reflexivity.
              * rewrite !length_app. cbn [length]. lia.
              * rewrite length_take. cbn [length]. lia.
            + rewrite (app_assoc (take _ _)), take_drop.
              rewrite <- !app_assoc. reflexivity. }
        rewrite Hstate.
        specialize (IH fuel pre done m (drop (length rest) (nx :: rest) ++ post)
                       ltac:(lia)).
        cbv zeta in IH.
        replace (length pre + length done + 1 + length (nx :: rest) - 1)%nat
          with (length pre + length done + 1 + length rest)%nat
          by (cbn [length]; lia).
        apply IH.
        -- intros Hnil nx' rest' Hrest Hboth'.
           specialize (Hsmall Hnil nx rest eq_refl Hboth).
           cbn [length] in Hsmall. lia.
        -- intros d Hd. specialize (Hlast d Hd). exact Hlast.
    + (* no merge: [++current] *)
      cbn [merge_valid]. rewrite Hboth.
      specialize (IH fuel pre (done ++ [c]) nx post ltac:(lia)).
      cbv zeta in IH.
      replace (pre ++ (done ++ [c]) ++ nx :: rest ++ post)
        with (pre ++ done ++ c :: nx :: rest ++ post) in IH
        by (rewrite <- !app_assoc; reflexivity).
      replace (length pre + length (done ++ [c]) + 1 + length rest)%nat
        with (length pre + length done + 1 + length (nx :: rest))%nat in IH
        by (rewrite length_app; cbn [length]; lia).
      replace (length pre + length (done ++ [c]))%nat
        with (S (length pre + length done)) in IH
        by (rewrite length_app; cbn [length]; lia).
      rewrite <- app_assoc in IH. cbn [app] in IH.
      apply IH.
      * intros Hnil. destruct done; discriminate.
      * intros d Hd. rewrite last_snoc in Hd. injection Hd as <-. exact Hboth.
Qed.

(** When the first two elements are not both free, or the sequence has at
    most three elements, [merge_adjacent_regions] does what the loop would
    do with an iterator that stays on the merged region. *)
Lemma merge_adjacent_regions_valid (regions : list Region) :
  front_pair_safe regions = true ->
  merge_adjacent_regions regions
  = match regions with
    | [] => []
    | c :: rest => merge_valid c rest
    end.
Proof.
  intros Hsafe. destruct regions as [|c [|nx rest]]; try reflexivity.
  unfold merge_adjacent_regions.
  destruct (Nat.ltb_spec (length (c :: nx :: rest)) 2) as [H|_];
    [cbn [length] in H; lia|].
  pose proof (sweep_at_slot (nx :: rest) (2 * length (c :: nx :: rest)) [] [] c [])
    as Hsim.
  cbv zeta in Hsim. cbn [app length Nat.add] in Hsim.
  rewrite app_nil_r in Hsim. cbn [length]. apply Hsim.
  - lia.
  - intros _ nx' rest' E Hboth. injection E as <- <-.
    unfold front_pair_safe in Hsafe. rewrite Hboth in Hsafe.
    cbn [negb orb length] in Hsafe. apply Nat.leb_le in Hsafe.
    cbn [length]. lia.
  - intros d Hd. discriminate.
Qed.

Lemma no_adjacent_free_front_pair (l : list Region) :
  no_adjacent_free l = true -> front_pair_safe l = true.
Proof.
  destruct l as [|a [|b l]]; try reflexivity. intros H.
  change (no_adjacent_free (a :: b :: l))
    with (negb (available a && available b) && no_adjacent_free (b :: l)) in H.
  apply andb_prop in H as [H _]. unfold front_pair_safe. now rewrite H.
Qed.

Lemma sum_extents_nonneg (l : list Region) :
  Forall (fun r => 0 <= extent r) l -> 0 <= sum_extents l.
Proof.
  induction 1 as [|r l Hr _ IH]; [reflexivity|]. rewrite sum_extents_cons. lia.
Qed.

Lemma merge_valid_sum (rest : list Region) (c : Region) :
  0 <= extent c ->
  Forall (fun r => 0 <= extent r) rest ->
  extent c + sum_extents rest < 2 ^ 64 ->
  sum_extents (merge_valid c rest) = extent c + sum_extents rest.
Proof.
  revert c. induction rest as [|next rest IH]; intros c Hc HF Hlt.
  - cbn. lia.
  - inversion HF as [|? ? Hn HF']; subst.
    rewrite sum_extents_cons in Hlt.
    pose proof (sum_extents_nonneg rest HF').
    cbn [merge_valid]. destruct (available c && available next).
    + unfold add_size_t. rewrite to_size_t_small by lia.
      rewrite IH; cbn [set_extent extent]; try lia; try assumption.
      rewrite sum_extents_cons. lia.
    + rewrite !sum_extents_cons, IH; try assumption; lia.
Qed.

Lemma merge_valid_head (rest : list Region) (c : Region) :
  exists head tail,
    merge_valid c rest = head :: tail
    /\ available head = available c.
Proof.
  revert c. induction rest as [|next rest IH]; intros c.
  - now exists c, [].
  - cbn [merge_valid]. destruct (available c && available next).
    + destruct (IH (set_extent (add_size_t (extent c) (extent next)) c))
        as (head & tail & E & Ha).
      now exists head, tail.
    + now exists c, (merge_valid next rest).
Qed.

Lemma merge_valid_no_adjacent_free (rest : list Region) (c : Region) :
  no_adjacent_free (merge_valid c rest) = true.
Proof.
  revert c. induction rest as [|next rest IH]; intros c.
  - reflexivity.
  - cbn [merge_valid].
    destruct (available c && available next) eqn:Hboth; [apply IH|].
    specialize (IH next).
    destruct (merge_valid_head rest next) as (head & tail & E & Ha).
    rewrite E in *.
    change (no_adjacent_free (c :: head :: tail))
      with (negb (available c && available head)
            && no_adjacent_free (head :: tail)).
    now rewrite Ha, Hboth, IH.
Qed.

Lemma merge_valid_fixed (rest : list Region) (c : Region) :
  no_adjacent_free (c :: rest) = true ->
  merge_valid c rest = c :: rest.
Proof.
  revert c. induction rest as [|next rest IH]; intros c H; [reflexivity|].
  change (no_adjacent_free (c :: next :: rest))
    with (negb (available c && available next)
          && no_adjacent_free (next :: rest)) in H.
  apply andb_prop in H as [H1 H2].
  cbn [merge_valid]. apply negb_true_iff in H1. rewrite H1.
  now rewrite IH.
Qed.

Lemma merge_valid_occupied (rest : list Region) (c : Region) :
  occupied_of (merge_valid c rest) = occupied_of (c :: rest)
  /\ (length (merge_valid c rest) <= length (c :: rest))%nat.
Proof.
  revert c. induction rest as [|next rest IH]; intros c.
  - split; reflexivity.
  - cbn [merge_valid].
    destruct (available c) eqn:Hc; destruct (available next) eqn:Hn;
      cbn [andb].
    + destruct (IH (set_extent (add_size_t (extent c) (extent next)) c))
        as [E L].
      rewrite E. unfold occupied_of. cbn [List.filter set_extent available length] in *.
      rewrite Hc, Hn. cbn [negb]. split; [reflexivity | lia].
    + destruct (IH next) as [E L]. unfold occupied_of in *.
      cbn [List.filter length] in *. rewrite Hc, Hn in *. cbn [negb] in *.
      rewrite E. split; [reflexivity | lia].
    + destruct (IH next) as [E L]. unfold occupied_of in *.
      cbn [List.filter length] in *. rewrite Hc, Hn in *. cbn [negb] in *.
      rewrite E. split; [reflexivity | lia].
    + destruct (IH next) as [E L]. unfold occupied_of in *.
      cbn [List.filter length] in *. rewrite Hc, Hn in *. cbn [negb] in *.
      rewrite E. split; [reflexivity | lia].
Qed.


(** ** Splitting *)

(** When [allocate] splits the region it selected, the remainder becomes
    the last element of the sequence. *)
Lemma allocate_split_appends (s : MemoryManager) (sizeInBytes : Z)
    (i : nat) (r : Region) :
  let w := convert_to_words s sizeInBytes in
  let chosen := selector s (to_int w) (Some (getList s)) in
  storage_area s <> 0 ->
  chosen <> -1 ->
  find_if (fun r => available r && (position r =? to_size_t chosen))
          (memory_regions s) = Some (i, r) ->
  w < extent r ->
  memory_regions (fst (allocate s sizeInBytes))
  = alter (set_available false) i (alter (set_extent w) i (memory_regions s))
    ++ [mkRegion (to_size_t (position r + w)) (to_size_t (extent r - w)) true].
Proof.
  intros w chosen Hs Hc Hfind Hlt. unfold allocate.
  destruct (Z.eqb_spec (storage_area s) 0); [contradiction|].
  fold w. fold chosen.
  destruct (Z.eqb_spec chosen (-1)); [contradiction|].
  rewrite Hfind. cbn [fst memory_regions].
  destruct (Z.ltb_spec w (extent r)); [|lia].
  apply find_if_Some in Hfind as [Hi _].
  apply lookup_lt_Some in Hi.
  rewrite !alter_app_l; [reflexivity | now rewrite length_alter | assumption].
Qed.

(** * The split of [allocate] against the order of the sequence

    [allocate] appends the remainder of a split with [emplace_back], while
    [merge_adjacent_regions] folds neighbours of the sequence. The
    following evaluations show what this does to the ledger; they all use
    a word size of 4, [bestFit] and an arena at address 4096. *)

(** C1 (fails on the code): after [initialize(100)], [allocate(40)],
    [allocate(8)], [free] of the first block and [allocate(4)], the region
    sequence is (0,1) (10,2) (12,88) (1,9): the remainder (1,9) of the split
    is stored last, so the sequence is neither in position order nor laid
    out back to back. A [free] of the second block then folds (12,88) and
    (1,9) into (10,2): the sequence (0,1) (10,99) has a gap at words 1 to 9
    and runs past the 100 words of the arena. *)
Theorem split_breaks_position_order :
  let s := run (MemoryManager_new 4 bestFit)
               [Initialize 4096 100; Allocate 40; Allocate 8; Free 4096;
                Allocate 4] in
  triples s = [(0, 1, false); (10, 2, false); (12, 88, true); (1, 9, true)]
  /\ contiguous_from 0 (memory_regions s) = false
  /\ triples (free s 4136) = [(0, 1, false); (10, 99, true)]
  /\ contiguous_from 0 (memory_regions (free s 4136)) = false.
Proof. repeat split; vm_compute; reflexivity. Qed.

(** C2 (fails on the code): in the state (0,10,free) (10,2,occupied)
    (12,88,free), [allocate(4)] needs one word and selects the region at
    position 0, of extent 10. It shrinks it to one word and marks it
    occupied, but the remainder (1,9) is not the element after it: that
    is still (10,2), and the remainder is the last element. *)
Theorem split_remainder_is_not_next :
  let s := run (MemoryManager_new 4 bestFit)
               [Initialize 4096 100; Allocate 40; Allocate 8; Free 4096] in
  let s' := fst (allocate s 4) in
  triples s = [(0, 10, true); (10, 2, false); (12, 88, true)]
  /\ convert_to_words s 4 = 1
  /\ selector s 1 (Some (getList s)) = 0
  /\ triples s' = [(0, 1, false); (10, 2, false); (12, 88, true); (1, 9, true)]
  /\ memory_regions s' !! 1%nat = Some (mkRegion 10 2 false)
  /\ memory_regions s' !! 3%nat = Some (mkRegion 1 9 true).
Proof. repeat split; vm_compute; reflexivity. Qed.

(** C3 (fails on the code): two states that follow a call of [free].
    In the first, [free] releases the block at word 0 and merges nothing:
    the free regions (0,4) and (4,6) touch in the address space but are not
    neighbours in the sequence (0,4) (10,90) (4,6). In the second, [free]
    of an address that was never handed out is ignored and leaves the
    sequence (0,1) (10,2) (12,88) (1,9), whose last two elements are both
    free. *)
Theorem free_leaves_free_neighbours :
  let m := MemoryManager_new 4 bestFit in
  let released := run m [Initialize 4096 100; Allocate 40; Allocate 360;
                         Free 4096; Allocate 16; Free 4096] in
  let ignored := run m [Initialize 4096 100; Allocate 40; Allocate 8;
                        Free 4096; Allocate 4; Free 4100] in
  triples released = [(0, 4, true); (10, 90, false); (4, 6, true)]
  /\ touching_free_pair (memory_regions released) = true
  /\ triples ignored
     = [(0, 1, false); (10, 2, false); (12, 88, true); (1, 9, true)]
  /\ no_adjacent_free (memory_regions ignored) = false.
Proof. repeat split; vm_compute; reflexivity. Qed.

(** C5 (fails on the code): the calls below, all with positive sizes, end
    in a state whose allocation table is empty and whose free list is the
    single hole (0,2). [allocate(4)] succeeds there and returns the base of
    the arena; [free] of that address leaves the free list (0,1) (1,1). *)
Theorem round_trip_changes_free_list :
  let s := run (MemoryManager_new 4 bestFit)
               [Initialize 4096 4; Allocate 8; Allocate 8; Free 4096;
                Allocate 4; Allocate 4; Free 4096; Free 4104;
                Allocate 4; Allocate 8; Free 4096; Free 4100] in
  let s' := fst (allocate s 4) in
  let p := snd (allocate s 4) in
  allocation_table s = ∅
  /\ triples s = [(0, 2, true); (1, 2, false)]
  /\ free_regions s = [(0, 2)]
  /\ p = 4096
  /\ triples s' = [(0, 1, false); (1, 2, false); (1, 1, true)]
  /\ triples (free s' p) = [(0, 1, true); (1, 2, false); (1, 1, true)]
  /\ free_regions (free s' p) = [(0, 1); (1, 1)]
  /\ getList (free s' p) <> getList s.
Proof. repeat split; vm_compute; try reflexivity; discriminate. Qed.

(** * The sweep of [merge_adjacent_regions] against [erase]

    [merge_adjacent_regions] drops the iterator that [erase] returns. When
    the first two elements of a sequence of four or more are merged, [erase]
    pops the slot [current] is on, and the loop goes on from a slot outside
    the deque. *)

(** C4 (fails on the code): after [initialize(100)], three calls of
    [allocate] and [free] of the second block, the sequence is (0,10,occ)
    (10,2,free) (12,2,occ) (14,86,free) and the extents add up to 100.
    [free] of the first block frees (0,10); the sweep merges it with
    (10,2), loses [current], and leaves the single region (14,86): the
    extents add up to 86 while the capacity is still 100. *)
Theorem sweep_loses_regions :
  let s := run (MemoryManager_new 4 bestFit)
               [Initialize 4096 100; Allocate 40; Allocate 8; Allocate 8;
                Free 4136] in
  triples s = [(0, 10, false); (10, 2, true); (12, 2, false); (14, 86, true)]
  /\ sum_extents (memory_regions s) = 100
  /\ triples (free s 4096) = [(14, 86, true)]
  /\ sum_extents (memory_regions (free s 4096)) = 86
  /\ total_capacity (free s 4096) = 100.
Proof. repeat split; vm_compute; reflexivity. Qed.

(** * Further properties of the code *)

(** ** The listing of the free regions *)

Lemma pair_ltb_false_le (x y : Z * Z) : pair_ltb y x = false -> pair_le x y.
Proof.
  unfold pair_ltb, pair_le. intros H.
  apply orb_false_elim in H as [H1 H2].
  apply Z.ltb_ge in H1.
  destruct (Z.eqb_spec (fst y) (fst x)) as [E|E]; [|lia].
  cbn [andb] in H2. apply Z.ltb_ge in H2. lia.
Qed.

Lemma pair_ltb_true_le (x y : Z * Z) : pair_ltb y x = true -> pair_le y x.
Proof.
  unfold pair_ltb, pair_le. intros H.
  apply orb_prop in H as [H|H].
  - apply Z.ltb_lt in H. lia.
  - apply andb_prop in H as [H1 H2].
    apply Z.eqb_eq in H1. apply Z.ltb_lt in H2. lia.
Qed.

Lemma pair_le_trans (x y z : Z * Z) : pair_le x y -> pair_le y z -> pair_le x z.
Proof. unfold pair_le. lia. Qed.

Lemma insert_sorted_perm (x : Z * Z) (l : list (Z * Z)) :
  Permutation (insert_sorted x l) (x :: l).
Proof.
  induction l as [|y l IH]; cbn [insert_sorted]; [reflexivity|].
  destruct (pair_ltb y x); [|reflexivity].
  rewrite IH. apply perm_swap.
Qed.

Lemma sort_pairs_perm (l : list (Z * Z)) : Permutation (sort_pairs l) l.
Proof.
  induction l as [|x l IH]; [reflexivity|].
  cbn [sort_pairs fold_right]. fold (sort_pairs l).
  rewrite insert_sorted_perm. now constructor.
Qed.

Lemma insert_sorted_sorted (x : Z * Z) (l : list (Z * Z)) :
  StronglySorted pair_le l -> StronglySorted pair_le (insert_sorted x l).
Proof.
  induction 1 as [|y l Hs IH Hy]; cbn [insert_sorted].
  - repeat constructor.
  - destruct (pair_ltb y x) eqn:E.
    + constructor; [exact IH|].
      rewrite insert_sorted_perm. constructor; [|exact Hy].
      now apply pair_ltb_true_le.
    + apply pair_ltb_false_le in E.
      constructor; [now constructor|].
      constructor; [exact E|].
      eapply Forall_impl; [exact Hy|]. intros z Hz.
      now apply (pair_le_trans x y z).
Qed.

Lemma sort_pairs_sorted (l : list (Z * Z)) : StronglySorted pair_le (sort_pairs l).
Proof.
  induction l as [|x l IH]; [constructor|].
  cbn [sort_pairs fold_right]. now apply insert_sorted_sorted.
Qed.

(** X1: the list [getList] encodes holds exactly the free regions of the
    sequence, as (position, extent) pairs with their multiplicity, in
    ascending lexicographic order, wherever they stand in the sequence. *)
Theorem free_regions_sorted_listing (s : MemoryManager) :
  StronglySorted pair_le (free_regions s)
  /\ Permutation (free_regions s) (holes_of (memory_regions s)).
Proof.
  split; [apply sort_pairs_sorted | apply sort_pairs_perm].
Qed.

(** X2: the array of [getList] has one count field and two fields per free
    region, and every field is a 16-bit value, whatever the positions and
    extents of the regions are. *)
Theorem getList_shape (s : MemoryManager) :
  length (getList s) = (2 * length (holes_of (memory_regions s)) + 1)%nat
  /\ Forall (fun field => 0 <= field < 2 ^ 16) (getList s).
Proof.
  unfold getList. cbv zeta.
  assert (Hlen : length (free_regions s) = length (holes_of (memory_regions s))).
  { apply Permutation_length, sort_pairs_perm. }
  rewrite <- Hlen. generalize (free_regions s). intros holes.
  split.
  - cbn [length]. f_equal.
    induction holes as [|h holes IH]; [reflexivity|].
    cbn [flat_map app length]. rewrite IH. lia.
  - constructor; [apply Z.mod_pos_bound; lia|].
    induction holes as [|h holes IH]; [constructor|].
    cbn [flat_map app].
    repeat (constructor; [apply Z.mod_pos_bound; lia|]). exact IH.
Qed.

(** ** Coalescing *)

(** X3: [merge_adjacent_regions] returns the sequence it was given when
    no two consecutive elements of it are both free. *)
Theorem merge_adjacent_regions_fixed (l : list Region) :
  no_adjacent_free l = true -> merge_adjacent_regions l = l.
Proof.
  intros H.
  rewrite merge_adjacent_regions_valid by now apply no_adjacent_free_front_pair.
  destruct l as [|c rest]; [reflexivity|]. now apply merge_valid_fixed.
Qed.

Lemma merge_adjacent_regions_fixed_witness :
  let l := [mkRegion 0 10 true; mkRegion 10 2 false; mkRegion 12 88 true] in
  merge_adjacent_regions l = l.
Proof. apply merge_adjacent_regions_fixed. reflexivity. Defined.

(** X4: when the first two elements are not both free, or the sequence
    has at most three elements, [merge_adjacent_regions] leaves the
    occupied regions as they are, in the same order, does not lengthen the
    sequence, and leaves no two consecutive elements both free. *)
Theorem merge_adjacent_regions_keeps_occupied (l : list Region) :
  front_pair_safe l = true ->
  occupied_of (merge_adjacent_regions l) = occupied_of l
  /\ (length (merge_adjacent_regions l) <= length l)%nat
  /\ no_adjacent_free (merge_adjacent_regions l) = true.
Proof.
  intros H. rewrite merge_adjacent_regions_valid by exact H.
  destruct l as [|c rest]; [now repeat split|].
  destruct (merge_valid_occupied rest c) as [E L].
  repeat split; [exact E | exact L | apply merge_valid_no_adjacent_free].
Qed.

Lemma merge_adjacent_regions_keeps_occupied_witness :
  let l := [mkRegion 0 10 false; mkRegion 10 2 true; mkRegion 12 2 true;
            mkRegion 14 2 false; mkRegion 16 4 true; mkRegion 20 80 true] in
  occupied_of (merge_adjacent_regions l) = occupied_of l
  /\ (length (merge_adjacent_regions l) <= length l)%nat
  /\ no_adjacent_free (merge_adjacent_regions l) = true.
Proof. apply merge_adjacent_regions_keeps_occupied. reflexivity. Defined.

(** X18: under the same condition, and when the extents are those of
    [size_t] values that add up to less than [2 ^ 64],
    [merge_adjacent_regions] keeps the sum of the extents. *)
Theorem merge_adjacent_regions_keeps_sum (l : list Region) :
  front_pair_safe l = true ->
  Forall (fun r => 0 <= extent r) l ->
  sum_extents l < 2 ^ 64 ->
  sum_extents (merge_adjacent_regions l) = sum_extents l.
Proof.
  intros H HF Hlt. rewrite merge_adjacent_regions_valid by exact H.
  destruct l as [|c rest]; [reflexivity|].
  inversion HF; subst. now apply merge_valid_sum.
Qed.

Lemma merge_adjacent_regions_keeps_sum_witness :
  let l := [mkRegion 0 10 false; mkRegion 10 2 true; mkRegion 12 2 true;
            mkRegion 14 2 false; mkRegion 16 4 true; mkRegion 20 80 true] in
  sum_extents (merge_adjacent_regions l) = sum_extents l.
Proof.
  apply merge_adjacent_regions_keeps_sum;
    [reflexivity | repeat constructor; cbn; lia | cbn; lia].
Defined.

(** ** What a call of [allocate] or [free] changes *)

Lemma allocate_cases (s : MemoryManager) (sizeInBytes : Z) :
  allocate s sizeInBytes = (s, 0)
  \/ exists i r regions,
       storage_area s <> 0
       /\ memory_regions s !! i = Some r
       /\ available r = true
       /\ allocate s sizeInBytes
          = (mkManager (unit_size s) (selector s) (storage_area s)
               (total_capacity s) regions
               (<[snd (allocate s sizeInBytes) := sizeInBytes]> (allocation_table s)),
             snd (allocate s sizeInBytes))
       /\ storage_area s <= snd (allocate s sizeInBytes)
          < storage_area s + 2 ^ 32.
Proof.
  unfold allocate.
  destruct (Z.eqb_spec (storage_area s) 0) as [|Hs]; [now left|].
  destruct (_ =? -1); [now left|].
  destruct (find_if _ _) as [[i r]|] eqn:Hfind; [|now left].
  right. apply find_if_Some in Hfind as [Hi Hp].
  apply andb_prop in Hp as [Ha _].
  exists i, r. eexists. cbn [snd].
  repeat split; try eassumption; try reflexivity;
    unfold to_unsigned;
    match goal with
    | |- context [?a mod 2 ^ 32] => pose proof (Z.mod_pos_bound a (2 ^ 32)); lia
    end.
Qed.

(** X5: a call of [allocate] that returns the null pointer leaves the whole
    state as it was, whatever the placement strategy is. *)
Theorem allocate_null_unchanged (s : MemoryManager) (sizeInBytes : Z) :
  0 <= storage_area s ->
  snd (allocate s sizeInBytes) = 0 ->
  fst (allocate s sizeInBytes) = s.
Proof.
  intros Hs Hnull.
  destruct (allocate_cases s sizeInBytes) as [E | (i & r & regions & Hne & _ & _ & _ & Hp)].
  - now rewrite E.
  - lia.
Qed.

Lemma allocate_null_unchanged_witness :
  let s := initialize (MemoryManager_new 4 bestFit) 4096 10 in
  fst (allocate s 44) = s.
Proof.
  intros s. apply allocate_null_unchanged; [cbn; lia | vm_compute; reflexivity].
Defined.

(** X6: a call of [allocate] that returns a pointer records the requested
    byte size under that pointer and touches no other entry of the
    allocation table; the pointer is at most [2 ^ 32] bytes above the base
    of the arena; word size, base and capacity are unchanged. *)
Theorem allocate_records_size (s : MemoryManager) (sizeInBytes : Z) :
  snd (allocate s sizeInBytes) <> 0 ->
  let s' := fst (allocate s sizeInBytes) in
  let p := snd (allocate s sizeInBytes) in
  allocation_table s' = <[p := sizeInBytes]> (allocation_table s)
  /\ allocation_table s' !! p = Some sizeInBytes
  /\ storage_area s <= p < storage_area s + 2 ^ 32
  /\ unit_size s' = unit_size s
  /\ storage_area s' = storage_area s
  /\ total_capacity s' = total_capacity s.
Proof.
  intros Hp s' p. subst s' p.
  destruct (allocate_cases s sizeInBytes) as [E | (i & r & regions & _ & _ & _ & E & Hr)].
  - rewrite E in Hp. now cbn in Hp.
  - set (p := snd (allocate s sizeInBytes)) in *.
    rewrite E. cbn [fst allocation_table unit_size storage_area total_capacity].
    repeat split; try lia. apply lookup_insert_eq.
Qed.

Lemma allocate_records_size_witness :
  let s := initialize (MemoryManager_new 4 bestFit) 4096 10 in
  allocation_table (fst (allocate s 7)) !! snd (allocate s 7) = Some 7.
Proof.
  intros s.
  assert (H : snd (allocate s 7) <> 0) by (vm_compute; discriminate).
  exact (proj1 (proj2 (allocate_records_size s 7 H))).
Defined.

(** X7: a call of [free] that is not ignored had an entry for the address
    in the allocation table and an occupied region starting at its word
    offset; it removes that entry and no other, and keeps word size, base
    and capacity. *)
Theorem free_release_effect (s : MemoryManager) (address : Z) :
  free s address <> s ->
  let s' := free s address in
  is_Some (allocation_table s !! address)
  /\ (exists i r,
        memory_regions s !! i = Some r
        /\ available r = false
        /\ position r = to_size_t ((address - storage_area s) / unit_size s))
  /\ allocation_table s' = delete address (allocation_table s)
  /\ unit_size s' = unit_size s
  /\ storage_area s' = storage_area s
  /\ total_capacity s' = total_capacity s.
Proof.
  intros Hne s'. subst s'. revert Hne. unfold free.
  destruct (_ || _); [congruence|].
  destruct (allocation_table s !! address) as [size|] eqn:Htab; [|congruence].
  destruct (find_if _ _) as [[i r]|] eqn:Hfind; [|congruence].
  intros _. apply find_if_Some in Hfind as [Hi Hp].
  apply andb_prop in Hp as [Hpos Ha].
  apply negb_true_iff in Ha. apply Z.eqb_eq in Hpos.
  cbn [allocation_table memory_regions unit_size storage_area total_capacity].
  repeat split; try reflexivity.
  - now exists size.
  - now exists i, r.
Qed.

Lemma free_release_effect_witness :
  let s := fst (allocate (initialize (MemoryManager_new 4 bestFit) 4096 10) 8) in
  allocation_table (free s 4096) = delete 4096 (allocation_table s).
Proof.
  intros s.
  assert (H : free s 4096 <> s).
  { intros E. apply (f_equal triples) in E. vm_compute in E. discriminate. }
  exact (proj1 (proj2 (proj2 (free_release_effect s 4096 H)))).
Defined.

(** ** A manager without an arena *)

Lemma free_without_arena (s : MemoryManager) (address : Z) :
  storage_area s = 0 -> total_capacity s = 0 -> free s address = s.
Proof.
  intros Hs Hc. unfold free, validate_address. rewrite Hs, Hc.
  change (to_size_t (0 * unit_size s)) with 0.
  destruct (Z.eqb_spec address 0); [reflexivity|].
  destruct (Z.leb_spec 0 address); destruct (Z.ltb_spec address (0 + 0));
    cbn; try reflexivity; lia.
Qed.

Lemma allocate_without_arena (s : MemoryManager) (sizeInBytes : Z) :
  storage_area s = 0 -> allocate s sizeInBytes = (s, 0).
Proof. intros Hs. unfold allocate. now rewrite Hs. Qed.

(** X8: while the manager has no arena (after construction or after
    [shutdown]), no sequence of [allocate], [free] and [setAllocator] calls
    creates a region or a table entry, and every [allocate] returns the
    null pointer. *)
Theorem no_arena_no_effect (s : MemoryManager) (calls : list Call) :
  storage_area s = 0 ->
  total_capacity s = 0 ->
  forallb (fun c => negb (is_initialize c)) calls = true ->
  let s' := run s calls in
  memory_regions s' = memory_regions s
  /\ allocation_table s' = allocation_table s
  /\ storage_area s' = 0
  /\ forall sizeInBytes, allocate s' sizeInBytes = (s', 0).
Proof.
  intros Hs Hc Hcalls s'. subst s'.
  revert s Hs Hc. induction calls as [|c calls IH]; intros s Hs Hc.
  - repeat split; try assumption. intros b. now apply allocate_without_arena.
  - cbn [forallb] in Hcalls. apply andb_prop in Hcalls as [Hc1 Hcalls].
    cbn [run fold_left]. fold (run (step s c) calls).
    destruct c as [fresh n | b | a | f]; cbn [step]; try discriminate.
    + rewrite allocate_without_arena by assumption. now apply IH.
    + rewrite free_without_arena by assumption. now apply IH.
    + apply (IH Hcalls (setAllocator s f)); assumption.
Qed.

Lemma no_arena_no_effect_witness :
  let s' := run (shutdown (initialize (MemoryManager_new 4 bestFit) 4096 10))
                [Allocate 8; Free 4096; SetAllocator worstFit; Allocate 1] in
  memory_regions s' = []
  /\ allocation_table s' = ∅
  /\ storage_area s' = 0
  /\ forall sizeInBytes, allocate s' sizeInBytes = (s', 0).
Proof.
  apply (no_arena_no_effect
           (shutdown (initialize (MemoryManager_new 4 bestFit) 4096 10)));
    reflexivity.
Defined.

(** ** Strategies at the edges of their input *)

Lemma bestFit_snapshot_any (need : Z) (holes : list (Z * Z)) :
  bestFit need (Some (snapshot holes))
  = match qualified_list (to_size_t need) holes with
    | [] => -1
    | h :: rest => to_int (start (min_element_from h rest))
    end.
Proof.
  unfold bestFit.
  change (nth 0 (snapshot holes) 0) with (Z.of_nat (length holes)).
  rewrite Nat2Z.id.
  pose proof (qualified_scan_snapshot (to_size_t need) holes []) as E.
  cbn [app length] in E. rewrite E. clear E.
  destruct holes as [|h holes]; [reflexivity|].
  destruct (Z.eqb_spec (Z.of_nat (length (h :: holes))) 0) as [E|_];
    [cbn [length] in E; lia | reflexivity].
Qed.

Lemma worstFit_snapshot_any (need : Z) (holes : list (Z * Z)) :
  worstFit need (Some (snapshot holes)) = worst_scan (to_size_t need) holes (-1) 0.
Proof.
  unfold worstFit.
  change (nth 0 (snapshot holes) 0) with (Z.of_nat (length holes)).
  rewrite Nat2Z.id.
  pose proof (worstFit_loop_snapshot (to_size_t need) holes [] (-1) 0) as E.
  cbn [app length] in E. change (2 * 0 + 1)%nat with 1%nat in E.
  rewrite E. clear E.
  destruct holes as [|h holes]; [reflexivity|].
  destruct (Z.eqb_spec (Z.of_nat (length (h :: holes))) 0) as [E|_];
    [cbn [length] in E; lia | reflexivity].
Qed.

Lemma worst_scan_none (need : Z) (holes : list (Z * Z)) (max_pos gap : Z) :
  Forall (fun h => snd h < need) holes ->
  worst_scan need holes max_pos gap = max_pos.
Proof.
  induction 1 as [|h holes Hh _ IH]; [reflexivity|].
  cbn [worst_scan]. destruct (Z.leb_spec need (snd h)); [lia|]. exact IH.
Qed.

Lemma no_fit_no_offset (need : Z) (holes : list (Z * Z)) :
  Forall (fun h => snd h < to_size_t need) holes ->
  bestFit need (Some (snapshot holes)) = -1
  /\ worstFit need (Some (snapshot holes)) = -1.
Proof.
  intros H. split.
  - rewrite bestFit_snapshot_any.
    now rewrite (proj2 (qualified_list_nil (to_size_t need) holes) H).
  - rewrite worstFit_snapshot_any. now apply worst_scan_none.
Qed.

(** X9: a negative word count is read as a huge unsigned one: on an array
    of 16-bit fields both strategies answer [-1]. This is what a request
    of [2 ^ 31] words or more becomes when [allocate] passes it as [int]. *)
Theorem negative_request_never_fits (need : Z) (holes : list (Z * Z)) :
  - 2 ^ 31 <= need < 0 ->
  Forall fits_uint16 holes ->
  bestFit need (Some (snapshot holes)) = -1
  /\ worstFit need (Some (snapshot holes)) = -1.
Proof.
  intros Hneed Hfit. apply no_fit_no_offset.
  assert (E : to_size_t need = need + 2 ^ 64).
  { unfold to_size_t. symmetry. apply (Z.mod_unique_pos _ _ (-1)); lia. }
  rewrite E. eapply Forall_impl; [exact Hfit|].
  intros h [_ Hh]. lia.
Qed.

Lemma negative_request_never_fits_witness :
  bestFit (-1) (Some (snapshot [(0, 10); (20, 65535)])) = -1
  /\ worstFit (-1) (Some (snapshot [(0, 10); (20, 65535)])) = -1.
Proof.
  apply negative_request_never_fits; [lia | repeat constructor; cbn; lia].
Defined.

(** ** Exhaustion *)

(** X10: under [bestFit] or [worstFit], for a request that needs fewer
    than [2 ^ 31] words (so that the count is the same as an [int]) and a
    free list that fits the 16-bit array, when every hole of the free list
    is smaller than the words the request needs, [allocate] returns the
    null pointer and the state it was given. *)
Theorem allocate_exhausted (s : MemoryManager) (sizeInBytes : Z) :
  selector s = bestFit \/ selector s = worstFit ->
  0 < unit_size s ->
  convert_to_words s sizeInBytes < 2 ^ 31 ->
  Z.of_nat (length (free_regions s)) < 2 ^ 16 ->
  Forall fits_uint16 (free_regions s) ->
  Forall (fun h => snd h < convert_to_words s sizeInBytes) (free_regions s) ->
  allocate s sizeInBytes = (s, 0).
Proof.
  intros Hsel Hu Hw Hlen Hfit Hsmall.
  pose proof (convert_to_words_nonneg s Hu sizeInBytes) as Hw0.
  unfold allocate.
  destruct (storage_area s =? 0); [reflexivity|].
  rewrite getList_snapshot by assumption.
  rewrite to_int_small by lia.
  assert (E : selector s (convert_to_words s sizeInBytes)
                (Some (snapshot (free_regions s))) = -1).
  { destruct (no_fit_no_offset (convert_to_words s sizeInBytes) (free_regions s))
      as [Eb Ew].
    - rewrite to_size_t_small by lia. exact Hsmall.
    - destruct Hsel as [-> | ->]; assumption. }
  now rewrite E.
Qed.

Lemma allocate_exhausted_witness :
  let s := fst (allocate (initialize (MemoryManager_new 4 worstFit) 4096 10) 20) in
  allocate s 24 = (s, 0).
Proof.
  intros s. apply allocate_exhausted.
  - right. reflexivity.
  - vm_compute. reflexivity.
  - vm_compute. reflexivity.
  - vm_compute. reflexivity.
  - vm_compute. repeat constructor; discriminate.
  - vm_compute. repeat constructor.
Defined.

(** ** A freshly initialised manager *)

Lemma to_unsigned_of_zero_offset (chosen unit : Z) :
  to_size_t chosen = 0 -> to_unsigned (chosen * unit) = 0.
Proof.
  unfold to_size_t, to_unsigned. intros H.
  apply Z.mod_divide in H; [|lia]. destruct H as [k ->].
  replace (k * 2 ^ 64 * unit) with (k * 2 ^ 32 * unit * 2 ^ 32) by lia.
  apply Z.mod_mul. lia.
Qed.

(** X11: on a freshly initialised manager, whatever the placement strategy
    is, [allocate] either fails and changes nothing, or returns the base of
    the arena; [free] of that pointer then gives back the freshly
    initialised state: one free region over all words and an empty
    allocation table. *)
Theorem fresh_round_trip (s0 : MemoryManager) (fresh wordCount sizeInBytes : Z) :
  0 < unit_size s0 ->
  fresh <> 0 ->
  0 < wordCount ->
  wordCount * unit_size s0 < 2 ^ 64 ->
  let s := initialize s0 fresh wordCount in
  let s' := fst (allocate s sizeInBytes) in
  let p := snd (allocate s sizeInBytes) in
  (p = 0 /\ s' = s) \/ (p = fresh /\ free s' p = s).
Proof.
  intros Hu Hfresh Hn Hprod s s' p. subst s' p.
  pose proof (convert_to_words_nonneg s Hu sizeInBytes) as Hw.
  assert (Hn64 : wordCount < 2 ^ 64) by nia.
  unfold allocate.
  change (storage_area s) with fresh. change (memory_regions s)
    with [mkRegion 0 wordCount true].
  change (unit_size s) with (unit_size s0) in *.
  change (total_capacity s) with wordCount.
  change (allocation_table s) with (∅ : gmap Z Z).
  change (selector s) with (selector s0).
  destruct (Z.eqb_spec fresh 0); [contradiction|].
  set (w := convert_to_words s sizeInBytes) in *.
  set (chosen := selector s0 (to_int w) (Some (getList s))).
  destruct (chosen =? -1); [now left|].
  cbn [find_if available position andb].
  destruct (Z.eqb_spec 0 (to_size_t chosen)) as [Hc|Hc]; [|now left].
  right. cbn [fst snd].
  rewrite to_unsigned_of_zero_offset by congruence.
  rewrite Z.add_0_r. split; [reflexivity|].
  assert (Hvalid : validate_address
            (mkManager (unit_size s0) (selector s0) fresh wordCount
               (alter (set_available false) 0%nat
                  (if w <? extent (mkRegion 0 wordCount true)
                   then alter (set_extent w) 0%nat
                          ([mkRegion 0 wordCount true] ++
                           [mkRegion (to_size_t (position (mkRegion 0 wordCount true) + w))
                              (to_size_t (extent (mkRegion 0 wordCount true) - w)) true])
                   else [mkRegion 0 wordCount true]))
               (<[fresh := sizeInBytes]> ∅)) fresh = true).
  { unfold validate_address. cbn [storage_area total_capacity unit_size].
    rewrite to_size_t_small by nia.
    destruct (Z.leb_spec fresh fresh); [|lia].
    destruct (Z.ltb_spec fresh (fresh + wordCount * unit_size s0)); [reflexivity | nia]. }
  unfold free. rewrite Hvalid.
  destruct (Z.eqb_spec fresh 0); [contradiction|].
  cbn [orb negb allocation_table storage_area unit_size memory_regions
       total_capacity selector].
  rewrite lookup_insert_eq.
  rewrite Z.sub_diag, Z.div_0_l by lia.
  change (to_size_t 0) with 0.
  rewrite delete_insert_eq by apply lookup_empty.
  cbn [extent position].
  destruct (Z.ltb_spec w wordCount) as [Hsplit|Hfit].
  - cbn [app alter list_alter set_extent set_available position extent available
         find_if Z.eqb negb andb].
    rewrite merge_adjacent_regions_pair.
    cbn [available andb set_extent set_available position extent].
    rewrite (to_size_t_small (wordCount - w)) by lia.
    unfold add_size_t. replace (w + (wordCount - w)) with wordCount by lia.
    rewrite to_size_t_small by lia. reflexivity.
  - cbn [app alter list_alter set_extent set_available position extent available
         find_if Z.eqb negb andb].
    reflexivity.
Qed.

Lemma fresh_round_trip_witness :
  let s := initialize (MemoryManager_new 4 worstFit) 4096 100 in
  (snd (allocate s 40) = 0 /\ fst (allocate s 40) = s)
  \/ (snd (allocate s 40) = 4096
      /\ free (fst (allocate s 40)) (snd (allocate s 40)) = s).
Proof.
  apply (fresh_round_trip (MemoryManager_new 4 worstFit) 4096 100 40);
    vm_compute; try reflexivity; discriminate.
Defined.

Lemma fresh_selection (s0 : MemoryManager) (fresh wordCount w : Z) :
  selector s0 = bestFit \/ selector s0 = worstFit ->
  0 < w <= wordCount ->
  wordCount < 2 ^ 16 ->
  let s := initialize s0 fresh wordCount in
  selector s (to_int w) (Some (getList s)) = 0.
Proof.
  intros Hsel Hw Hn s.
  assert (Hlist : getList s = snapshot [(0, wordCount)]).
  { apply (getList_snapshot s); [cbn; lia|].
    repeat constructor; cbn; lia. }
  rewrite Hlist, to_int_small by lia.
  change (selector s) with (selector s0).
  destruct Hsel as [-> | ->].
  - rewrite bestFit_snapshot by lia. cbn [qualified_list snd fst].
    destruct (Z.leb_spec w wordCount); [reflexivity | lia].
  - rewrite worstFit_snapshot by lia. cbn [worst_scan snd fst].
    destruct (Z.leb_spec w wordCount); [|lia].
    destruct (Z.ltb_spec 0 wordCount); [reflexivity | lia].
Qed.

(** X12: under [bestFit] or [worstFit], the first request on a fresh arena
    of fewer than [2 ^ 16] words succeeds whenever the words it needs fit:
    the pointer is the base of the arena, the table maps it to the byte
    size, and the sequence is the occupied region of the words needed
    followed by the free remainder, or one occupied region when the request
    takes the whole arena. *)
Theorem first_allocation_succeeds (s0 : MemoryManager)
    (fresh wordCount sizeInBytes : Z) :
  selector s0 = bestFit \/ selector s0 = worstFit ->
  0 < unit_size s0 ->
  fresh <> 0 ->
  0 < sizeInBytes ->
  sizeInBytes + unit_size s0 - 1 < 2 ^ 64 ->
  wordCount < 2 ^ 16 ->
  let s := initialize s0 fresh wordCount in
  let w := convert_to_words s sizeInBytes in
  w <= wordCount ->
  allocate s sizeInBytes
  = (mkManager (unit_size s0) (selector s0) fresh wordCount
       (if w <? wordCount
        then [mkRegion 0 w false; mkRegion w (wordCount - w) true]
        else [mkRegion 0 wordCount false])
       (<[fresh := sizeInBytes]> ∅),
     fresh).
Proof.
  intros Hsel Hu Hfresh Hb Hov Hn s w Hw.
  assert (Hw1 : 1 <= w).
  { pose proof (convert_to_words_bounds s Hu sizeInBytes) as B.
    change (unit_size s) with (unit_size s0) in B. subst w.
    specialize (B ltac:(lia) ltac:(assumption)). nia. }
  pose proof (fresh_selection s0 fresh wordCount w Hsel ltac:(lia) Hn) as Hchosen.
  unfold allocate. fold w.
  change (storage_area s) with fresh.
  destruct (Z.eqb_spec fresh 0); [contradiction|].
  cbv zeta in Hchosen. fold s in Hchosen. rewrite Hchosen.
  change (memory_regions s) with [mkRegion 0 wordCount true].
  change (to_size_t 0) with 0.
  cbn [Z.eqb find_if available position andb extent].
  change (to_unsigned (0 * unit_size s)) with 0. rewrite Z.add_0_r.
  destruct (Z.ltb_spec w wordCount) as [Hsplit|Hfit].
  - cbn [app alter list_alter set_extent set_available position extent available].
    rewrite !to_size_t_small by lia. rewrite Z.add_0_l. reflexivity.
  - cbn [alter list_alter set_available position extent available]. reflexivity.
Qed.

Lemma first_allocation_succeeds_witness :
  let s := initialize (MemoryManager_new 4 bestFit) 4096 100 in
  triples (fst (allocate s 40)) = [(0, 10, false); (10, 90, true)]
  /\ snd (allocate s 40) = 4096.
Proof.
  intros s.
  assert (E : allocate s 40
              = (mkManager 4 bestFit 4096 100
                   [mkRegion 0 10 false; mkRegion 10 90 true]
                   (<[4096 := 40]> ∅), 4096)).
  { apply (first_allocation_succeeds (MemoryManager_new 4 bestFit) 4096 100 40);
      try (left; reflexivity); vm_compute; try reflexivity; discriminate. }
  rewrite E. split; reflexivity.
Defined.

(** ** What every call keeps *)

Lemma step_arena (s : MemoryManager) (c : Call) :
  is_initialize c = false ->
  unit_size (step s c) = unit_size s
  /\ storage_area (step s c) = storage_area s
  /\ total_capacity (step s c) = total_capacity s.
Proof.
  destruct c as [fresh n | b | a | f]; cbn [step is_initialize]; intros H;
    try discriminate.
  - unfold allocate.
    destruct (storage_area s =? 0); [now repeat split|].
    destruct (_ =? -1); [now repeat split|].
    now destruct (find_if _ _) as [[i r]|].
  - unfold free.
    destruct (_ || _); [now repeat split|].
    destruct (allocation_table s !! a); [|now repeat split].
    now destruct (find_if _ _) as [[i r]|].
  - now repeat split.
Qed.

Lemma run_arena (calls : list Call) (s : MemoryManager) :
  forallb (fun c => negb (is_initialize c)) calls = true ->
  unit_size (run s calls) = unit_size s
  /\ storage_area (run s calls) = storage_area s
  /\ total_capacity (run s calls) = total_capacity s.
Proof.
  revert s. induction calls as [|c calls IH]; intros s H; [now repeat split|].
  cbn [forallb] in H. apply andb_prop in H as [Hc H].
  apply negb_true_iff in Hc.
  cbn [run fold_left]. fold (run (step s c) calls).
  destruct (IH (step s c) H) as (E1 & E2 & E3).
  destruct (step_arena s c Hc) as (F1 & F2 & F3).
  repeat split; congruence.
Qed.

(** X13: [allocate], [free] and [setAllocator] never move or resize the
    arena: after [initialize(wordCount)] and any such calls,
    [getMemoryStart] is the address [initialize] obtained, [getWordSize] is
    the word size of the constructor, and [getMemoryLimit] is
    [wordCount * wordSize] as long as that product fits in 32 bits. *)
Theorem arena_is_stable (wordSize : Z) (allocator : Selector)
    (before after : list Call) (fresh wordCount : Z) :
  0 <= wordSize < 2 ^ 32 ->
  0 <= wordCount * wordSize < 2 ^ 32 ->
  forallb (fun c => negb (is_initialize c)) after = true ->
  let s := run (MemoryManager_new wordSize allocator)
               (before ++ Initialize fresh wordCount :: after) in
  getWordSize s = wordSize
  /\ getMemoryStart s = fresh
  /\ getMemoryLimit s = wordCount * wordSize.
Proof.
  intros Hws Hprod Hafter s. subst s.
  unfold run. rewrite fold_left_app. cbn [fold_left step].
  fold (run (MemoryManager_new wordSize allocator) before).
  set (s0 := run _ before).
  fold (run (initialize s0 fresh wordCount) after).
  destruct (run_arena after (initialize s0 fresh wordCount) Hafter)
    as (E1 & E2 & E3).
  unfold getWordSize, getMemoryStart, getMemoryLimit.
  rewrite E1, E2, E3. cbn [initialize shutdown unit_size storage_area total_capacity].
  subst s0. rewrite run_unit_size. cbn [MemoryManager_new unit_size].
  rewrite (to_unsigned_small wordSize) by lia.
  rewrite to_size_t_small by lia.
  rewrite to_unsigned_small by lia. repeat split.
Qed.

Lemma arena_is_stable_witness :
  let s := run (MemoryManager_new 4 bestFit)
               ([Allocate 4] ++ Initialize 4096 100
                  :: [Allocate 40; Free 4096; SetAllocator worstFit; Allocate 8]) in
  getWordSize s = 4 /\ getMemoryStart s = 4096 /\ getMemoryLimit s = 100 * 4.
Proof.
  apply (arena_is_stable 4 bestFit); [lia | lia | reflexivity].
Defined.

(** ** The occupancy bitmap *)

Ltac compare_cases :=
  repeat match goal with
         | |- context [Z.leb ?a ?b] => destruct (Z.leb_spec a b)
         | |- context [Z.ltb ?a ?b] => destruct (Z.ltb_spec a b)
         | |- context [Nat.ltb ?a ?b] => destruct (Nat.ltb_spec a b)
         | |- context [Z.eqb ?a ?b] => destruct (Z.eqb_spec a b)
         end;
  cbn [andb orb negb]; try reflexivity; try lia.

Lemma mark_loop (pos : Z) (m : nat) (ws : list bool) :
  0 <= pos -> pos + Z.of_nat m < 2 ^ 64 ->
  let ws' := fold_left
               (fun ws i => <[Z.to_nat (to_size_t (pos + Z.of_nat i)) := false]> ws)
               (seq 0 m) ws in
  length ws' = length ws
  /\ forall k : nat,
       ws' !! k
       = (fun b => b && negb ((pos <=? Z.of_nat k) && (Z.of_nat k <? pos + Z.of_nat m)))
           <$> ws !! k.
Proof.
  intros Hpos. induction m as [|m IH]; intros Hlt ws'; subst ws'.
  - split; [reflexivity|]. intros k. cbn [seq fold_left].
    destruct (ws !! k) as [b|]; cbn [fmap option_fmap option_map]; [|reflexivity].
    f_equal. destruct b; compare_cases.
  - rewrite seq_S, fold_left_app. cbn [fold_left Nat.add].
    destruct IH as [Hlen Hlook]; [lia|].
    set (prev := fold_left _ (seq 0 m) ws) in *.
    rewrite to_size_t_small by lia.
    split; [now rewrite length_insert|].
    intros k.
    destruct (decide (Z.to_nat (pos + Z.of_nat m) = k)) as [E|E].
    + destruct (decide (k < length prev)%nat) as [Hin|Hout].
      * rewrite E, list_lookup_insert_eq by exact Hin.
        destruct (lookup_lt_is_Some_2 ws k) as [b Hb]; [lia|].
        rewrite Hb. cbn [fmap option_fmap option_map].
        f_equal. destruct b; compare_cases.
      * rewrite list_insert_ge by lia. rewrite Hlook.
        rewrite (lookup_ge_None_2 ws) by lia. reflexivity.
    + rewrite list_lookup_insert_ne by exact E. rewrite Hlook.
      destruct (ws !! k) as [b|]; [|reflexivity].
      cbn [fmap option_fmap option_map]. f_equal. destruct b; compare_cases.
Qed.

Lemma mark_free_words_spec (capacity : Z) (ws : list bool) (r : Region) :
  capacity < 2 ^ 64 -> free_within capacity r ->
  length (mark_free_words ws r) = length ws
  /\ forall k : nat,
       mark_free_words ws r !! k
       = (fun b => b && negb (in_free_region [r] (Z.of_nat k))) <$> ws !! k.
Proof.
  intros Hcap Hin. unfold mark_free_words, in_free_region. cbn [existsb].
  destruct (available r) eqn:Ha.
  - destruct (Hin Ha) as (Hp & He & Hend).
    destruct (mark_loop (position r) (Z.to_nat (extent r)) ws Hp ltac:(lia))
      as [Hlen Hlook].
    split; [exact Hlen|]. intros k. rewrite Hlook.
    rewrite Z2Nat.id by exact He.
    destruct (ws !! k) as [b|]; [|reflexivity].
    cbn [fmap option_fmap option_map andb]. now rewrite orb_false_r.
  - split; [reflexivity|]. intros k.
    destruct (ws !! k) as [b|]; [|reflexivity].
    cbn [fmap option_fmap option_map andb orb negb]. now rewrite andb_true_r.
Qed.

Lemma mark_all_spec (capacity : Z) (l : list Region) (ws : list bool) :
  capacity < 2 ^ 64 -> Forall (free_within capacity) l ->
  length (fold_left mark_free_words l ws) = length ws
  /\ forall k : nat,
       fold_left mark_free_words l ws !! k
       = (fun b => b && negb (in_free_region l (Z.of_nat k))) <$> ws !! k.
Proof.
  intros Hcap HF. revert ws. induction HF as [|r l Hr _ IH]; intros ws.
  - split; [reflexivity|]. intros k. cbn [fold_left].
    destruct (ws !! k) as [b|]; [|reflexivity].
    cbn. now rewrite andb_true_r.
  - cbn [fold_left].
    destruct (mark_free_words_spec capacity ws r Hcap Hr) as [Hlen Hlook].
    destruct (IH (mark_free_words ws r)) as [Hlen' Hlook'].
    split; [congruence|]. intros k. rewrite Hlook', Hlook.
    destruct (ws !! k) as [b|]; [|reflexivity].
    cbn [fmap option_fmap option_map]. f_equal.
    unfold in_free_region. cbn [existsb].
    rewrite orb_false_r.
    destruct b; cbn [andb]; [|reflexivity].
    now rewrite negb_orb.
Qed.

Lemma lookup_repeat {A : Type} (x : A) (n k : nat) :
  (k < n)%nat -> repeat x n !! k = Some x.
Proof.
  revert k. induction n as [|n IH]; intros k Hk; [lia|].
  destruct k as [|k]; [reflexivity|]. cbn [repeat]. apply IH. lia.
Qed.

Lemma word_status_of_spec (s : MemoryManager) :
  0 <= total_capacity s < 2 ^ 64 ->
  Forall (free_within (total_capacity s)) (memory_regions s) ->
  length (word_status_of s) = Z.to_nat (total_capacity s)
  /\ forall k : nat,
       (k < Z.to_nat (total_capacity s))%nat ->
       status_at (word_status_of s) k
       = negb (in_free_region (memory_regions s) (Z.of_nat k)).
Proof.
  intros Hcap HF. unfold word_status_of, status_at.
  destruct (mark_all_spec (total_capacity s) (memory_regions s)
              (repeat true (Z.to_nat (total_capacity s))) ltac:(lia) HF)
    as [Hlen Hlook].
  rewrite repeat_length in Hlen. split; [exact Hlen|].
  intros k Hk. rewrite Hlook, lookup_repeat by exact Hk.
  cbn [fmap option_fmap option_map andb].
  now destruct (negb _).
Qed.




Lemma status_at_true (status : list bool) (k : nat) :
  status !! k = Some true -> status_at status k = true.
Proof. intros H. unfold status_at. now rewrite H. Qed.

Lemma status_at_false (status : list bool) (k : nat) :
  status !! k <> Some true -> status_at status k = false.
Proof. intros H. unfold status_at. destruct (status !! k) as [[|]|]; congruence. Qed.

Lemma bit_loop_bits (status : list bool) (B : nat) (result0 : list Z) (j m : nat) :
  (forall i, (i < B)%nat -> result0 !! (i + 2)%nat = Some 0) ->
  (j < B)%nat ->
  (m <= 8 * B)%nat ->
  exists byte,
    fold_left (set_word_bit status) (seq 0 m) result0 !! (j + 2)%nat = Some byte
    /\ 0 <= byte < 2 ^ 8
    /\ forall bit : nat,
         (bit < 8)%nat ->
         Z.testbit byte (Z.of_nat bit)
         = (8 * j + bit <? m)%nat && status_at status (8 * j + bit).
Proof.
  intros Hzero Hj. induction m as [|m IH]; intros Hm.
  - exists 0. cbn [seq fold_left]. split; [now apply Hzero|].
    split; [lia|]. intros bit Hbit. now rewrite Z.bits_0.
  - destruct IH as (byte & Hlook & Hrange & Hbits); [lia|].
    rewrite seq_S, fold_left_app. cbn [fold_left Nat.add].
    set (prev := fold_left _ (seq 0 m) result0) in *.
    unfold set_word_bit.
    pose proof (Nat.div_mod_eq m 8) as Hdm.
    pose proof (Nat.mod_upper_bound m 8 ltac:(lia)) as Hmod.
    destruct (decide (status !! m = Some true)) as [Hs|Hs].
    + rewrite Hs.
      destruct (decide ((m / 8)%nat = j)) as [E|E].
      * rewrite E, list_lookup_alter_eq, Hlook. cbn [fmap option_fmap option_map].
        eexists. split; [reflexivity|].
        split; [apply Z.mod_pos_bound; lia|].
        intros bit Hbit. unfold to_uint8.
        rewrite Z.mod_pow2_bits_low by lia.
        rewrite Z.lor_spec, Z.shiftl_1_l, Z.pow2_bits_eqb by lia.
        rewrite (Hbits bit Hbit).
        destruct (decide (bit = (m mod 8)%nat)) as [Eb|Eb].
        -- assert (Ek : (8 * j + bit)%nat = m) by lia.
           rewrite Ek, (status_at_true _ _ Hs).
           subst bit. rewrite Z.eqb_refl, orb_true_r.
           destruct (Nat.ltb_spec m (S m)); [reflexivity | lia].
        -- destruct (Z.eqb_spec (Z.of_nat (m mod 8)) (Z.of_nat bit)); [lia|].
           rewrite orb_false_r. f_equal.
           destruct (Nat.ltb_spec (8 * j + bit) m);
             destruct (Nat.ltb_spec (8 * j + bit) (S m)); try reflexivity; lia.
      * rewrite list_lookup_alter_ne by lia.
        exists byte. split; [exact Hlook|]. split; [exact Hrange|].
        intros bit Hbit. rewrite (Hbits bit Hbit). f_equal.
        destruct (Nat.ltb_spec (8 * j + bit) m);
          destruct (Nat.ltb_spec (8 * j + bit) (S m)); try reflexivity; lia.
    + assert (Hprev : match status !! m with
                      | Some true =>
                          alter (fun b => to_uint8 (Z.lor b (Z.shiftl 1 (Z.of_nat (m mod 8)))))
                                (m / 8 + 2)%nat prev
                      | _ => prev
                      end = prev)
        by (destruct (status !! m) as [[|]|]; congruence).
      rewrite Hprev.
      exists byte. split; [exact Hlook|]. split; [exact Hrange|].
      intros bit Hbit. rewrite (Hbits bit Hbit).
      destruct (decide ((8 * j + bit)%nat = m)) as [Ek|Ek].
      * rewrite Ek, (status_at_false _ _ Hs), !andb_false_r. reflexivity.
      * f_equal.
        destruct (Nat.ltb_spec (8 * j + bit) m);
          destruct (Nat.ltb_spec (8 * j + bit) (S m)); try reflexivity; lia.
Qed.

Lemma bitmap_bytes_needed_eq (s : MemoryManager) :
  0 <= total_capacity s < 2 ^ 64 ->
  bitmap_bytes_needed s = (total_capacity s + 7) / 8.
Proof.
  intros Hcap. unfold bitmap_bytes_needed.
  destruct (Z.eqb_spec (total_capacity s mod 8) 0) as [E|E].
  - Z.div_mod_to_equations. lia.
  - rewrite to_size_t_small by (Z.div_mod_to_equations; lia).
    Z.div_mod_to_equations. lia.
Qed.

Lemma getBitmap_unfold (s : MemoryManager) :
  getBitmap s
  = fold_left (set_word_bit (word_status_of s))
      (seq 0 (Z.to_nat (total_capacity s)))
      (to_uint8 (Z.land (bitmap_bytes_needed s) 255)
       :: to_uint8 (Z.land (Z.shiftr (bitmap_bytes_needed s) 8) 255)
       :: repeat 0 (Z.to_nat (bitmap_bytes_needed s))).
Proof. reflexivity. Qed.



(** X16: when the free regions lie inside the arena, bit [k mod 8] of byte
    [k / 8] after the header of [getBitmap] is set exactly when [k] is a
    word of the arena that lies in no free region of the sequence; the
    bits of the last byte past the capacity are clear, and every byte is
    an 8-bit value. *)
Theorem getBitmap_agrees (s : MemoryManager) (k : Z) :
  0 <= total_capacity s < 2 ^ 64 ->
  Forall (free_within (total_capacity s)) (memory_regions s) ->
  0 <= k < 8 * ((total_capacity s + 7) / 8) ->
  exists byte,
    getBitmap s !! (Z.to_nat (k / 8) + 2)%nat = Some byte
    /\ 0 <= byte < 2 ^ 8
    /\ Z.testbit byte (k mod 8)
       = (k <? total_capacity s) && negb (in_free_region (memory_regions s) k).
Proof.
  intros Hcap HF Hk.
  pose proof (bitmap_bytes_needed_eq s Hcap) as HB.
  destruct (word_status_of_spec s Hcap HF) as [_ Hstatus].
  assert (Hk8 : 0 <= k / 8 < (total_capacity s + 7) / 8)
    by (Z.div_mod_to_equations; lia).
  assert (Hbit : 0 <= k mod 8 < 8) by (apply Z.mod_pos_bound; lia).
  destruct (bit_loop_bits (word_status_of s)
              (Z.to_nat (bitmap_bytes_needed s))
              (to_uint8 (Z.land (bitmap_bytes_needed s) 255)
               :: to_uint8 (Z.land (Z.shiftr (bitmap_bytes_needed s) 8) 255)
               :: repeat 0 (Z.to_nat (bitmap_bytes_needed s)))
              (Z.to_nat (k / 8)) (Z.to_nat (total_capacity s)))
    as (byte & Hlook & Hrange & Hbits).
  - intros i Hi. replace (i + 2)%nat with (S (S i)) by lia.
    cbn [lookup list_lookup]. now apply lookup_repeat.
  - rewrite HB. lia.
  - rewrite HB. Z.div_mod_to_equations. lia.
  - rewrite <- getBitmap_unfold in Hlook.
    exists byte. split; [exact Hlook|]. split; [exact Hrange|].
    specialize (Hbits (Z.to_nat (k mod 8)) ltac:(lia)).
    rewrite Z2Nat.id in Hbits by lia. rewrite Hbits.
    assert (Eidx : (8 * Z.to_nat (k / 8) + Z.to_nat (k mod 8))%nat = Z.to_nat k)
      by (Z.div_mod_to_equations; lia).
    rewrite Eidx.
    destruct (Z.ltb_spec k (total_capacity s)) as [Hin|Hout].
    + destruct (Nat.ltb_spec (Z.to_nat k) (Z.to_nat (total_capacity s))); [|lia].
      rewrite Hstatus by lia. now rewrite Z2Nat.id by lia.
    + destruct (Nat.ltb_spec (Z.to_nat k) (Z.to_nat (total_capacity s))); [lia|].
      reflexivity.
Qed.

Lemma getBitmap_agrees_witness :
  let s := run (MemoryManager_new 4 bestFit)
               [Initialize 4096 20; Allocate 12; Allocate 8; Allocate 40; Free 4108] in
  exists byte,
    getBitmap s !! (Z.to_nat (9 / 8) + 2)%nat = Some byte
    /\ 0 <= byte < 2 ^ 8
    /\ Z.testbit byte (9 mod 8)
       = (9 <? total_capacity s) && negb (in_free_region (memory_regions s) 9).
Proof.
  intros s. apply getBitmap_agrees.
  - vm_compute. split; [discriminate | reflexivity].
  - vm_compute. repeat constructor; intros; try discriminate.
  - vm_compute. split; [discriminate | reflexivity].
Defined.

(** ** Occupied regions *)

Lemma occupied_of_occupy (l : list Region) (i : nat) (r : Region) :
  l !! i = Some r -> available r = true ->
  length (occupied_of (alter (set_available false) i l))
  = S (length (occupied_of l)).
Proof.
  revert i. induction l as [|a l IH]; intros [|i] Hi Ha; try discriminate.
  - injection Hi as ->. unfold occupied_of.
    cbn [alter list_alter List.filter set_available available negb length].
    now rewrite Ha.
  - unfold occupied_of in *. cbn [alter list_alter List.filter].
    destruct (negb (available a)); cbn [length]; now rewrite (IH i Hi Ha).
Qed.

Lemma occupied_of_alter_extent (w : Z) (l : list Region) (i : nat) :
  length (occupied_of (alter (set_extent w) i l)) = length (occupied_of l).
Proof.
  revert i. induction l as [|a l IH]; intros [|i]; try reflexivity.
  - unfold occupied_of. cbn [alter list_alter List.filter set_extent available].
    now destruct (negb (available a)).
  - unfold occupied_of in *. cbn [alter list_alter List.filter].
    destruct (negb (available a)); cbn [length]; now rewrite IH.
Qed.

Lemma occupied_of_app_free (l : list Region) (rem : Region) :
  available rem = true -> occupied_of (l ++ [rem]) = occupied_of l.
Proof.
  intros Ha. unfold occupied_of. rewrite List.filter_app.
  cbn [List.filter]. rewrite Ha. cbn [negb]. apply app_nil_r.
Qed.

(** X17: a call of [allocate] that returns a pointer turns exactly one free
    region into an occupied one and adds at most one element to the
    sequence. *)
Theorem allocate_occupies_one (s : MemoryManager) (sizeInBytes : Z) :
  snd (allocate s sizeInBytes) <> 0 ->
  let s' := fst (allocate s sizeInBytes) in
  length (occupied_of (memory_regions s'))
  = S (length (occupied_of (memory_regions s)))
  /\ (length (memory_regions s) <= length (memory_regions s')
      <= S (length (memory_regions s)))%nat.
Proof.
  intros Hp s'. subst s'. revert Hp. unfold allocate.
  destruct (storage_area s =? 0); [cbn; congruence|].
  destruct (_ =? -1); [cbn; congruence|].
  destruct (find_if _ _) as [[i r]|] eqn:Hfind; [|cbn; congruence].
  intros _. apply find_if_Some in Hfind as [Hi Hr].
  apply andb_prop in Hr as [Ha _].
  cbn [fst memory_regions].
  destruct (_ <? _).
  - set (rem := mkRegion _ _ true).
    assert (Hi' : alter (set_extent (convert_to_words s sizeInBytes)) i
                    (memory_regions s ++ [rem]) !! i
                  = Some (set_extent (convert_to_words s sizeInBytes) r)).
    { rewrite list_lookup_alter_eq, (lookup_app_l_Some _ _ _ _ Hi). reflexivity. }
    rewrite (occupied_of_occupy _ _ _ Hi' Ha).
    rewrite occupied_of_alter_extent, occupied_of_app_free by reflexivity.
    rewrite !length_alter, length_app. cbn [length]. lia.
  - rewrite (occupied_of_occupy _ _ _ Hi Ha), length_alter. lia.
Qed.

Lemma allocate_occupies_one_witness :
  let s := initialize (MemoryManager_new 4 bestFit) 4096 100 in
  length (occupied_of (memory_regions (fst (allocate s 40))))
  = S (length (occupied_of (memory_regions s)))
  /\ (length (memory_regions s) <= length (memory_regions (fst (allocate s 40)))
      <= S (length (memory_regions s)))%nat.
Proof.
  intros s. apply allocate_occupies_one. vm_compute. discriminate.
Defined.
